(** * Labeler: a shallow embedding of [src/main.ts]

    The action labels pull requests from the glob patterns their changed
    files match.  The TypeScript program is embedded function by function:
    values of type [any] are JavaScript values, numbers are integers or NaN,
    [Set<string>] is a [gset string], the insertion-ordered
    [Map<string, string[]>] is an association list, and every call that
    leaves the process (the platform API, the log) is an event of a trace. *)

From Stdlib Require Import ZArith Lia Ascii String DecimalString DecimalPos DecimalZ.
From stdpp Require Import base decidable option list strings gmap.

Local Open Scope string_scope.
Local Open Scope list_scope.
Local Open Scope Z_scope.

#[local] Set Warnings "-register-all".

(** ** JavaScript numbers

    [parseInt] returns an integer or NaN; the program only compares the
    number with zero, subtracts one and prints it.  Integers are exact
    below 2^53, the range the operation budget lives in; beyond it
    JavaScript rounds to the nearest double and prints the rounded value,
    which is outside the model. *)
Module JS.

Inductive number : Type :=
  | NaN
  | Num (z : Z).

(** [a <= b]: false as soon as one side is NaN. *)
Definition le (a b : number) : bool :=
  match a, b with
  | Num x, Num y => x <=? y
  | _, _ => false
  end.

(** [a - b] *)
Definition sub (a b : number) : number :=
  match a, b with
  | Num x, Num y => Num (x - y)
  | _, _ => NaN
  end.

Definition string_of_Z (z : Z) : string := NilZero.string_of_int (Z.to_int z).

(** Number-to-string conversion of a template literal. *)
Definition number_to_string (n : number) : string :=
  match n with
  | NaN => "NaN"
  | Num z => string_of_Z z
  end.

(** White space and line terminators, the ones [String.prototype.trim] and
    [parseInt] strip.  A string is held as its UTF-8 bytes: the white space
    of the ASCII range is one byte, U+00A0 is two, and U+1680, U+2000 to
    U+200A, U+2028, U+2029, U+202F, U+205F, U+3000 and U+FEFF are three. *)
Definition is_space (c : ascii) : bool :=
  let n := N_of_ascii c in
  (((9 <=? n) && (n <=? 13)) || (n =? 32))%N.

Definition is_space2 (c d : ascii) : bool :=
  ((N_of_ascii c =? 194) && (N_of_ascii d =? 160))%N.

Definition is_space3 (c d e : ascii) : bool :=
  let '(c, d, e) := (N_of_ascii c, N_of_ascii d, N_of_ascii e) in
  (((c =? 225) && (d =? 154) && (e =? 128))
   || ((c =? 226) && (d =? 128)
       && (((128 <=? e) && (e <=? 138)) || (e =? 168) || (e =? 169) || (e =? 175)))
   || ((c =? 226) && (d =? 129) && (e =? 159))
   || ((c =? 227) && (d =? 128) && (e =? 128))
   || ((c =? 239) && (d =? 187) && (e =? 191)))%N.

(** The string without the white space it starts with, for white space of
    one, two and three bytes. *)
Fixpoint strip (two : ascii -> ascii -> bool) (three : ascii -> ascii -> ascii -> bool)
    (s : string) : string :=
  match s with
  | String c rest =>
      if is_space c then strip two three rest
      else
        match rest with
        | String d rest' =>
            if two c d then strip two three rest'
            else
              match rest' with
              | String e rest'' => if three c d e then strip two three rest'' else s
              | EmptyString => s
              end
        | EmptyString => s
        end
  | EmptyString => EmptyString
  end.

Definition trimStart (s : string) : string := strip is_space2 is_space3 s.

Definition trimEnd (s : string) : string :=
  String.rev (strip (fun d c => is_space2 c d) (fun e d c => is_space3 c d e)
                (String.rev s)).

Definition trim (s : string) : string := trimEnd (trimStart s).

(** Value of a character as a digit of the given radix (10 or 16). *)
Definition digit_value (radix : Z) (c : ascii) : option Z :=
  let n := Z.of_N (N_of_ascii c) in
  let v :=
    if (48 <=? n) && (n <=? 57) then Some (n - 48)
    else if (97 <=? n) && (n <=? 122) then Some (n - 87)
    else if (65 <=? n) && (n <=? 90) then Some (n - 55)
    else None in
  match v with
  | Some d => if d <? radix then Some d else None
  | None => None
  end.

(** The longest prefix of radix digits, as digit values. *)
Fixpoint leading_digits (radix : Z) (s : string) : list Z :=
  match s with
  | String c rest =>
      match digit_value radix c with
      | Some d => d :: leading_digits radix rest
      | None => []
      end
  | EmptyString => []
  end.

Definition digits_value (radix : Z) (ds : list Z) : Z :=
  fold_left (fun acc d => acc * radix + d) ds 0.

(** [parseInt(string)] with no radix argument (ECMAScript 18.2.5): leading
    white space is skipped, one sign is read, a [0x] or [0X] prefix selects
    radix 16 and anything else radix 10, then the longest run of digits is
    read; no digit at all gives NaN. *)
Definition parseInt (input : string) : number :=
  let s := trimStart input in
  let '(sign, s) :=
    match s with
    | String "-" rest => (-1, rest)
    | String "+" rest => (1, rest)
    | _ => (1, s)
    end in
  let '(radix, s) :=
    match s with
    | String "0" (String "x" rest) => (16, rest)
    | String "0" (String "X" rest) => (16, rest)
    | _ => (10, s)
    end in
  match leading_digits radix s with
  | [] => NaN
  | ds => Num (sign * digits_value radix ds)
  end.

(** An [Error] object: the constructor's name and the message. *)
Record error : Type := Error_ { error_name : string; message : string }.

Definition Error (msg : string) : error := Error_ "Error" msg.
Definition TypeError (msg : string) : error := Error_ "TypeError" msg.

(** A value of type [any], as the YAML loader or a webhook payload delivers
    it: no functions.  A number is only ever tested for its type and
    printed, so it carries its printed form.  An object lists its own
    properties in the order [for ... in] enumerates them. *)
Inductive value : Type :=
  | Null
  | Bool (b : bool)
  | Number (printed : string)
  | Str (s : string)
  | Array (items : list value)
  | Object (props : list (string * value)).

(** Conversion to string inside a template literal. *)
Fixpoint to_string (v : value) : string :=
  match v with
  | Null => "null"
  | Bool true => "true"
  | Bool false => "false"
  | Number printed => printed
  | Str s => s
  | Array items =>
      let item_to_string (x : value) : string :=
        match x with
        | Null => ""
        | _ => to_string x
        end in
      String.concat "," (map item_to_string items)
  | Object _ => "[object Object]"
  end.

(** A continuation byte of UTF-8, [10xxxxxx]. *)
Definition is_continuation (c : ascii) : bool :=
  let n := N_of_ascii c in ((128 <=? n) && (n <? 192))%N.

(** The characters a string yields when iterated: its code points.  A
    string is held as its UTF-8 bytes, so a character is a byte with the
    continuation bytes that follow it. *)
Fixpoint chars (s : string) : list string :=
  match s with
  | String c rest =>
      match chars rest with
      | String d piece :: pieces =>
          if is_continuation d then String c (String d piece) :: pieces
          else String c EmptyString :: String d piece :: pieces
      | pieces => String c EmptyString :: pieces
      end
  | EmptyString => []
  end.

(** The pairs [(key, object[key])] a [for (key in object)] loop visits:
    the properties of an object, the indices of an array or of a string
    (of characters of the basic plane), nothing for the other values. *)
Definition for_in (v : value) : list (string * value) :=
  match v with
  | Object props => props
  | Array items => imap (fun i x => (string_of_Z (Z.of_nat i), x)) items
  | Str s => imap (fun i c => (string_of_Z (Z.of_nat i), Str c)) (chars s)
  | _ => []
  end.

(** [callee(...)]: no value of [value] is a function, so the call throws
    and gives no result to the code after it. *)
Definition call {A} (callee_text : string) (callee : value) : error + A :=
  inl (TypeError (callee_text +:+ " is not a function")).

(** [new Set(a0, a1, ...)] reads its first argument only and iterates it:
    a string contributes its characters. *)
Definition new_Set (args : list string) : gset string :=
  match args with
  | [] => ∅
  | iterable :: _ => list_to_set (chars iterable)
  end.

End JS.

(** ** Glob matching

    Modelled from the spec: the [minimatch] package (with its
    [brace-expansion] and [balanced-match]) is a dependency that is not part
    of [src/]; this is its matcher with the default options, for the
    patterns of section 4.2 of the specification: [*], [?] and [**], brace
    alternation [{a,b}], bracket classes [[abc]], [[a-z]], [[!a]], and a
    leading [!] or [#].  Backslash escapes, brace sequences [{1..3}] and
    extglob groups such as [+(a|b)] are outside the model; a character is
    a byte. *)
Module Minimatch.

(** *** Brace expansion *)

(** A character of a pattern under expansion.  An inert character is one
    the expansion has escaped: it is never read as a brace or a comma. *)
Inductive bchar : Type :=
  | Plain (c : ascii)
  | Inert (c : ascii).

Definition is_plain (c : ascii) (b : bchar) : bool :=
  match b with
  | Plain d => Ascii.eqb c d
  | Inert _ => false
  end.

Definition unescape (b : bchar) : ascii :=
  match b with
  | Plain c | Inert c => c
  end.

Definition is_newline (b : bchar) : bool :=
  Ascii.eqb (unescape b) "010" || Ascii.eqb (unescape b) "013".

(** [str.indexOf(c, from)] *)
Fixpoint indexOf (c : ascii) (from : nat) (str : list bchar) : option nat :=
  match str with
  | [] => None
  | b :: str' =>
      match from with
      | O => if is_plain c b then Some O else S <$> indexOf c O str'
      | S from' => S <$> indexOf c from' str'
      end
  end.

(** The loop of [range] in [balanced-match]: [i] walks over the braces,
    [begs] is the stack of the open ones, [left_] and [right_] the innermost
    pair seen when the string is not balanced. *)
Fixpoint range_loop (fuel : nat) (str : list bchar) (i : nat) (ai bi : option nat)
    (begs : list nat) (left_ : nat) (right_ : option nat) : option (nat * nat) :=
  match fuel with
  | O => None
  | S fuel' =>
      let next (ai bi : option nat) : option nat :=
        match ai, bi with
        | Some a, Some b => if (a <? b)%nat then Some a else Some b
        | Some _, None => None
        | None, _ => bi
        end in
      let finish (begs : list nat) (left_ : nat) (right_ : option nat) : option (nat * nat) :=
        match begs, right_ with
        | _ :: _, Some r => Some (left_, r)
        | _, _ => None
        end in
      if bool_decide (ai = Some i) then
        let begs := i :: begs in
        let ai := indexOf "{" (S i) str in
        match next ai bi with
        | Some i' => range_loop fuel' str i' ai bi begs left_ right_
        | None => finish begs left_ right_
        end
      else
        match begs with
        | [beg] => (fun b => (beg, b)) <$> bi
        | _ =>
            let '(left_, right_) :=
              match begs with
              | beg :: _ => if (beg <? left_)%nat then (beg, bi) else (left_, right_)
              | [] => (left_, right_)
              end in
            let begs := tail begs in
            let bi := indexOf "}" (S i) str in
            match next ai bi with
            | Some i' => range_loop fuel' str i' ai bi begs left_ right_
            | None => finish begs left_ right_
            end
        end
  end.

(** [balanced('{', '}', str)]: the text before the first balanced pair of
    braces, the text inside and the text after. *)
Definition balanced (str : list bchar) : option (list bchar * list bchar * list bchar) :=
  match indexOf "{" O str with
  | None => None
  | Some a =>
      match indexOf "}" (S a) str with
      | None => None
      | Some b =>
          match range_loop (S (length str)) str a (Some a) (Some b) [] (length str) None with
          | Some (start, stop) =>
              Some (take start str, take (stop - S start) (drop (S start) str),
                    drop (S stop) str)
          | None => None
          end
      end
  end.

(** [/.*\}/] at the start of [str] *)
Fixpoint closes_on_line (str : list bchar) : bool :=
  match str with
  | [] => false
  | b :: str' => is_plain "}" b || (negb (is_newline b) && closes_on_line str')
  end.

(** [/c.*\}/] somewhere in [str] *)
Fixpoint matches_until_close (c : ascii) (str : list bchar) : bool :=
  match str with
  | [] => false
  | b :: str' => (is_plain c b && closes_on_line str') || matches_until_close c str'
  end.

(** [str.split(',')] *)
Fixpoint split_comma (str : list bchar) : list (list bchar) :=
  match str with
  | [] => [[]]
  | b :: str' =>
      if is_plain "," b then [] :: split_comma str'
      else
        match split_comma str' with
        | part :: parts => (b :: part) :: parts
        | [] => [[b]]
        end
  end.

(** [p[p.length - 1] += text] *)
Fixpoint append_last (p : list (list bchar)) (text : list bchar) : list (list bchar) :=
  match p with
  | [] => [text]
  | [part] => [part ++ text]
  | part :: p' => part :: append_last p' text
  end.

(** The members of a comma set: the commas inside nested braces do not
    separate. *)
Fixpoint parseCommaParts (fuel : nat) (str : list bchar) : list (list bchar) :=
  match fuel with
  | O => [str]
  | S fuel' =>
      match str with
      | [] => [[]]
      | _ =>
          match balanced str with
          | None => split_comma str
          | Some (pre, body, post) =>
              let p := append_last (split_comma pre) (Plain "{" :: body ++ [Plain "}"]) in
              match post with
              | [] => p
              | _ =>
                  match parseCommaParts fuel' post with
                  | first :: others => append_last p first ++ others
                  | [] => p
                  end
              end
          end
      end
  end.

Definition ends_with_dollar (pre : list bchar) : bool :=
  match last pre with
  | Some b => is_plain "$" b
  | None => false
  end.

Definition embrace (str : list bchar) : list bchar := Plain "{" :: str ++ [Plain "}"].

Definition is_empty (str : list bchar) : bool :=
  match str with
  | [] => true
  | _ => false
  end.

(** [expand(str, isTop)] of [brace-expansion], for comma sets. *)
Fixpoint expand (fuel : nat) (str : list bchar) (isTop : bool) : list (list bchar) :=
  match fuel with
  | O => [str]
  | S fuel' =>
      match balanced str with
      | None => [str]
      | Some (pre, body, post) =>
          if ends_with_dollar pre then [str]
          else if negb (existsb (is_plain ",") body)
          then
            (* {a},b} *)
            if matches_until_close "," post
            then expand fuel' (pre ++ Plain "{" :: body ++ Inert "}" :: post) false
            else [str]
          else
            let post' :=
              match post with
              | [] => [[]]
              | _ => expand fuel' post false
              end in
            let expansions (n : list (list bchar)) : list (list bchar) :=
              let N := n ≫= (fun el => expand fuel' el false) in
              List.filter (fun expansion => negb isTop || negb (is_empty expansion))
                (N ≫= (fun x => (fun p => pre ++ x ++ p) <$> post')) in
            match parseCommaParts (S (length body)) body with
            | [single] =>
                (* x{{a,b}}y ==> x{a}y x{b}y *)
                match embrace <$> expand fuel' single false with
                | [one] => (fun p => pre ++ one ++ p) <$> post'
                | n => expansions n
                end
            | n => expansions n
            end
      end
  end.

(** [braceExpand(pattern)]: the patterns a pattern with braces stands for. *)
Definition braceExpand (pattern : string) : list string :=
  let str := list_ascii_of_string pattern in
  if negb (matches_until_close "{" (Plain <$> str)) then [pattern]
  else
    let escaped :=
      match str with
      | "{"%char :: "}"%char :: rest => Inert "{" :: Inert "}" :: (Plain <$> rest)
      | _ => Plain <$> str
      end in
    (fun expansion => string_of_list_ascii (unescape <$> expansion))
      <$> expand (S (2 * length str)) escaped true.

(** *** Path portions *)

Inductive token : Type :=
  | Star
  | Qmark
  | Char (c : ascii)
  | Class (negated : bool) (ranges : list (ascii * ascii)).

(** A compiled path portion: the globstar, a literal portion compared by
    equality, or a portion with magic. *)
Inductive part : Type :=
  | GLOBSTAR
  | Literal (s : string)
  | Magic (toks : list token).

(** The text of a bracket class and the text after its closing bracket; a
    bracket that comes first in the class stands for itself. *)
Fixpoint class_text (first : bool) (s : string) : option (string * string) :=
  match s with
  | EmptyString => None
  | String c rest =>
      if Ascii.eqb c "]" && negb first then Some (EmptyString, rest)
      else
        match class_text false rest with
        | Some (cs, after) => Some (String c cs, after)
        | None => None
        end
  end.

Definition ascii_le (a b : ascii) : bool := (N_of_ascii a <=? N_of_ascii b)%N.

(** The members of a class: characters and ranges [a-z]; a range whose ends
    are out of order makes the class invalid. *)
Fixpoint class_ranges (cs : list ascii) : option (list (ascii * ascii)) :=
  match cs with
  | [] => Some []
  | a :: cs' =>
      match cs' with
      | "-"%char :: b :: cs'' =>
          if ascii_le a b then cons (a, b) <$> class_ranges cs'' else None
      | _ => cons (a, a) <$> class_ranges cs'
      end
  end.

(** The class a text stands for: a leading [!] or [^] negates. *)
Definition class_of (cs : string) : option token :=
  match cs with
  | String "!" members | String "^" members =>
      Class true <$> class_ranges (list_ascii_of_string members)
  | _ => Class false <$> class_ranges (list_ascii_of_string cs)
  end.

Fixpoint tokens_of (fuel : nat) (s : string) : list token :=
  match fuel with
  | O => []
  | S fuel' =>
      match s with
      | String "*" rest => Star :: tokens_of fuel' rest
      | String "?" rest => Qmark :: tokens_of fuel' rest
      | String "[" rest =>
          match class_text true rest with
          | Some (cs, after) =>
              match class_of cs with
              | Some class => class :: tokens_of fuel' after
              | None =>
                  (* not a valid class: the brackets stand for themselves *)
                  Char "[" :: tokens_of fuel' cs ++ Char "]" :: tokens_of fuel' after
              end
          | None => Char "[" :: tokens_of fuel' rest
          end
      | String c rest => Char c :: tokens_of fuel' rest
      | EmptyString => []
      end
  end.

Definition tokens (s : string) : list token := tokens_of (String.length s) s.

Definition is_magic (t : token) : bool :=
  match t with
  | Char _ => false
  | _ => true
  end.

Definition parse (portion : string) : part :=
  if bool_decide (portion = "**") then GLOBSTAR
  else
    let toks := tokens portion in
    if existsb is_magic toks then Magic toks else Literal portion.

(** [s.split(/\/+/)]: a run of slashes separates two portions. *)
Fixpoint slashSplit (s : string) : list string :=
  match s with
  | EmptyString => [""]
  | String "/" rest =>
      match rest with
      | String "/" _ => slashSplit rest
      | _ => "" :: slashSplit rest
      end
  | String c rest =>
      match slashSplit rest with
      | portion :: portions => String c portion :: portions
      | [] => [String c ""]
      end
  end.

Definition not_slash (c : ascii) : bool := negb (Ascii.eqb c "/").

Definition in_class (negated : bool) (ranges : list (ascii * ascii)) (c : ascii) : bool :=
  xorb negated (existsb (fun r : ascii * ascii => ascii_le r.1 c && ascii_le c r.2) ranges).

(** The regular expression of a portion: [*] is [[^/]*?], [?] is [[^/]],
    a class is the class. *)
Fixpoint wild (toks : list token) (f : string) {struct toks} : bool :=
  match toks with
  | [] => bool_decide (f = "")
  | Char c :: toks' =>
      match f with
      | String d rest => Ascii.eqb c d && wild toks' rest
      | EmptyString => false
      end
  | Qmark :: toks' =>
      match f with
      | String d rest => not_slash d && wild toks' rest
      | EmptyString => false
      end
  | Class negated ranges :: toks' =>
      match f with
      | String d rest => in_class negated ranges d && wild toks' rest
      | EmptyString => false
      end
  | Star :: toks' =>
      (fix star (f : string) : bool :=
         wild toks' f ||
         match f with
         | String d rest => not_slash d && star rest
         | EmptyString => false
         end) f
  end.

Definition starts_with_dot (f : string) : bool :=
  match f with
  | String "." _ => true
  | _ => false
  end.

(** A portion with magic never matches the empty portion ([(?=.)]), and
    one that starts with the magic never matches a dot file ([(?!\.)]). *)
Definition test (toks : list token) (f : string) : bool :=
  match f with
  | EmptyString => false
  | String d _ =>
      negb (Ascii.eqb d "010" || Ascii.eqb d "013") &&
      match toks with
      | Char _ :: _ => true
      | _ => negb (starts_with_dot f)
      end &&
      wild toks f
  end.

(** The path portions [**] may not swallow: [.], [..] and dot files. *)
Definition is_dot (f : string) : bool := starts_with_dot f.

(** The [while (fr < fl)] loop of a globstar that is not last: try the
    rest of the pattern at each position, swallowing one portion a turn. *)
Fixpoint swallow (rest_matches : list string -> bool) (file : list string) : bool :=
  match file with
  | [] => false
  | swallowee :: file' =>
      rest_matches file ||
      (if is_dot swallowee then false else swallow rest_matches file')
  end.

Fixpoint matchOne (file : list string) (pattern : list part) {struct pattern} : bool :=
  match pattern with
  | [] =>
      match file with
      | [] => true
      | [f] => bool_decide (f = "")
      | _ => false
      end
  | p :: pattern' =>
      match file with
      | [] => false
      | f :: file' =>
          match p with
          | GLOBSTAR =>
              match pattern' with
              | [] => forallb (fun x => negb (is_dot x)) file
              | _ => swallow (fun file => matchOne file pattern') file
              end
          | Literal s => bool_decide (f = s) && matchOne file' pattern'
          | Magic toks => test toks f && matchOne file' pattern'
          end
      end
  end.

(** The fields of a [Minimatch] object that [match] reads. *)
Record t : Type := Make {
  comment : bool;
  empty : bool;
  negate : bool;
  set : list (list part)
}.

Definition starts_with_hash (pattern : string) : bool :=
  match pattern with
  | String "#" _ => true
  | _ => false
  end.

Fixpoint parseNegate (negate : bool) (pattern : string) : bool * string :=
  match pattern with
  | String "!" rest => parseNegate (negb negate) rest
  | _ => (negate, pattern)
  end.

Definition make (pattern : string) : t :=
  let pattern := JS.trim pattern in
  if starts_with_hash pattern then Make true false false []
  else if bool_decide (pattern = "") then Make false true false []
  else
    let '(negate, pattern) := parseNegate false pattern in
    Make false false negate
      ((fun expansion => parse <$> slashSplit expansion) <$> braceExpand pattern).

(** [matcher.match(f)] *)
Definition match_ (m : t) (f : string) : bool :=
  if comment m then false
  else if empty m then bool_decide (f = "")
  else
    let file := slashSplit f in
    if existsb (matchOne file) (set m) then negb (negate m) else negate m.

(** [new Minimatch(pattern).match(f)] for a pattern that is a string *)
Definition matches (pattern f : string) : bool := match_ (make pattern) f.

(** [new Minimatch(pattern)] of a library that answers [matches]: the
    constructor throws unless the pattern is a string. *)
Definition construct (matches : string -> string -> bool) (pattern : JS.value)
  : JS.error + (string -> bool) :=
  match pattern with
  | JS.Str s => inr (matches s)
  | _ => inl (JS.TypeError "glob pattern string required")
  end.

End Minimatch.

(** ** Effects

    Everything the program does to the outside is an event; a computation
    is the list of events it produced, in order, and either the error it
    threw or its result. *)
Inductive event : Type :=
  | Debug (msg : string)
  | Warning (msg : string)
  | LogError (error : JS.error)
  | SetFailed (msg : string)
  | GetContents (path : string)
  | ListPulls (page : nat)
  | ListFiles (pull_number : Z)
  | AddLabels (issue_number : Z) (labels : list string).

Definition action (A : Type) : Type := list event * (JS.error + A).

Definition trace {A} (m : action A) : list event := fst m.
Definition outcome {A} (m : action A) : JS.error + A := snd m.

#[export] Instance action_ret : MRet action := fun A a => ([], inr a).

#[export] Instance action_bind : MBind action := fun A B f m =>
  match m with
  | (t, inl e) => (t, inl e)
  | (t, inr a) => let '(t', r) := f a in (t ++ t', r)
  end.

Definition throw {A} (e : JS.error) : action A := ([], inl e).

Definition emit (ev : event) : action unit := ([ev], inr tt).

(** The result of an awaited call to the outside, after its event. *)
Definition await {A} (ev : event) (response : JS.error + A) : action A :=
  ([ev], response).

(** [try { body } catch (error) { handler }] *)
Definition try_catch {A} (body : action A) (handler : JS.error -> action A) : action A :=
  match body with
  | (t, inl e) => let '(t', r) := handler e in (t ++ t', r)
  | (t, inr a) => (t, inr a)
  end.

(** The log of [@actions/core]. *)
Module core.

Definition debug (msg : string) : action unit := emit (Debug msg).

Definition warning (msg : string) : action unit := emit (Warning msg).

Definition error (e : JS.error) : action unit := emit (LogError e).

Definition setFailed (msg : string) : action unit := emit (SetFailed msg).

End core.

(** ** The platform and the run context *)

Record Label : Type := { name : string }.

(** A pull request of the listing: [pr.number] and [pr.labels]. *)
Record PullRequest : Type := { number : Z; labels : list Label }.

(** The value [client.paginate.iterator] yields for a page of the listing:
    the response object of the request, whose [data] is the array of pull
    requests (its [status], [url] and [headers] are never read). *)
Record Response : Type := { data : list PullRequest }.

(** [github.context.payload.pull_request], when the run was triggered by a
    pull request event: the payload is parsed JSON. *)
Record PullRequestPayload : Type := {
  payload_number : Z;
  payload_labels : JS.value
}.

Record World : Type := {
  (** the [INPUT_...] environment: the value of an input, empty when unset *)
  input : string -> string;
  pull_request : option PullRequestPayload;
  (** [client.repos.getContents], decoded *)
  repos_getContents : string -> JS.error + string;
  (** [yaml.safeLoad] *)
  yaml_safeLoad : string -> JS.error + JS.value;
  (** the requests of [client.paginate.iterator] for the open pull
      requests, page by page in listing order: the error of the request, or
      the pull requests that are the [data] of its response; a failed
      request ends the iteration *)
  pulls_list : list (JS.error + list PullRequest);
  (** [client.pulls.listFiles]: the file names of a pull request *)
  pulls_listFiles : Z -> JS.error + list string;
  (** [client.issues.addLabels]: the error of the call, if it fails *)
  issues_addLabels : Z -> list string -> option JS.error
}.

Definition dquote : string := String "034" EmptyString.

(** The response object of a request of the listing. *)
Definition respond (request : JS.error + list PullRequest) : JS.error + Response :=
  match request with
  | inl e => inl e
  | inr pulls => inr {| data := pulls |}
  end.

(** [for (const pr of response)] on a response object: the object has no
    [Symbol.iterator], so the statement throws before the first turn of
    the loop and the body gets no pull request. *)
Definition for_of (response_text : string) (response : Response)
  : JS.error + list PullRequest :=
  inl (JS.TypeError (response_text +:+ " is not iterable")).

(** The rule set [Map<string, string[]>], in insertion order.  The arrays
    come unchecked from the configuration, so a glob is any value. *)
Definition LabelGlobs : Type := list (string * list JS.value).

(** [map.set(key, value)]: a present key keeps its position. *)
Fixpoint Map_set {V} (key : string) (v : V) (m : list (string * V)) : list (string * V) :=
  match m with
  | [] => [(key, v)]
  | (k, v') :: m' =>
      if bool_decide (k = key) then (k, v) :: m' else (k, v') :: Map_set key v m'
  end.

(** The way a loop body ends: the loop goes on with the budget left, or the
    function returned. *)
Inductive flow : Type :=
  | Next (operationsLeft : JS.number)
  | Return.

Section Program.

Variable w : World.

(** [core.getInput(name, {required})] *)
Definition getInput (name : string) (required : bool) : action string :=
  let val := input w name in
  if required && bool_decide (val = "")
  then throw (JS.Error ("Input required and not supplied: " +:+ name))
  else mret (JS.trim val).

Definition fetchContent (repoPath : string) : action string :=
  await (GetContents repoPath) (repos_getContents w repoPath).

Fixpoint getLabelGlobMap_loop (entries : list (string * JS.value)) (labelGlobs : LabelGlobs)
  : JS.error + LabelGlobs :=
  match entries with
  | [] => inr labelGlobs
  | (label, v) :: entries' =>
      match v with
      | JS.Str s => getLabelGlobMap_loop entries' (Map_set label [JS.Str s] labelGlobs)
      | JS.Array items => getLabelGlobMap_loop entries' (Map_set label items labelGlobs)
      | _ =>
          inl (JS.Error ("found unexpected type for label " +:+ label
                         +:+ " (should be string or array of globs)"))
      end
  end.

Definition getLabelGlobMapFromObject (configObject : JS.value) : JS.error + LabelGlobs :=
  getLabelGlobMap_loop (JS.for_in configObject) [].

Definition getLabelGlobs (configurationPath : string) : action LabelGlobs :=
  configurationContent ← fetchContent configurationPath;
  configObject ← ([], yaml_safeLoad w configurationContent);
  ([], getLabelGlobMapFromObject configObject).

Definition getChangedFiles (prNumber : Z) : action (list string) :=
  changedFiles ← await (ListFiles prNumber) (pulls_listFiles w prNumber);
  core.debug "found changed files:";;
  mapM (fun file => core.debug ("  " +:+ file)) changedFiles;;
  mret changedFiles.

(** The inner loop of [checkGlobs]: true when it returned true. *)
Fixpoint checkGlobs_files (matcher : string -> bool) (changedFiles : list string) : action bool :=
  match changedFiles with
  | [] => mret false
  | changedFile :: rest =>
      core.debug (" - " +:+ changedFile);;
      if matcher changedFile
      then core.debug (" " +:+ changedFile +:+ " matches");; mret true
      else checkGlobs_files matcher rest
  end.

(** [checkGlobs] over a matcher library: [Minimatch glob] is what
    [new Minimatch(glob)] gives, the error of the constructor or the
    [match] method of the object. *)
Fixpoint checkGlobs_with (Minimatch : JS.value -> JS.error + (string -> bool))
    (changedFiles : list string) (globs : list JS.value) : action bool :=
  match globs with
  | [] => mret false
  | glob :: rest =>
      core.debug (" checking pattern " +:+ JS.to_string glob);;
      matcher ← ([], Minimatch glob);
      hit ← checkGlobs_files matcher changedFiles;
      if hit : bool then mret true else checkGlobs_with Minimatch changedFiles rest
  end.

Definition checkGlobs (changedFiles : list string) (globs : list JS.value) : action bool :=
  checkGlobs_with (Minimatch.construct Minimatch.matches) changedFiles globs.

Definition addLabels (prNumber : Z) (labels : list string) : action unit :=
  core.debug ("adding labels to pr #{prNumber}: "
              +:+ String.concat ", " (map (fun l => dquote +:+ l +:+ dquote) labels));;
  await (AddLabels prNumber labels)
        (match issues_addLabels w prNumber labels with
         | Some e => inl e
         | None => inr tt
         end).

(** The loop over the rules of [processPR]. *)
Fixpoint processPR_rules (existingLabels : gset string) (changedFiles : list string)
    (entries : LabelGlobs) (labelsToAdd : list string) : action (list string) :=
  match entries with
  | [] => mret labelsToAdd
  | (label, globs) :: entries' =>
      core.debug ("processing " +:+ label);;
      if bool_decide (label ∈ existingLabels)
      then
        core.debug ("pr #{prNumber} is already labeled " +:+ dquote +:+ label +:+ dquote);;
        processPR_rules existingLabels changedFiles entries' labelsToAdd
      else
        hit ← checkGlobs changedFiles globs;
        processPR_rules existingLabels changedFiles entries'
          (if hit : bool then labelsToAdd ++ [label] else labelsToAdd)
  end.

(** The labels [processPR] decides to add: the rules, then the fallback. *)
Definition labelsToAdd (existingLabels : gset string) (changedFiles : list string)
    (labelGlobs : LabelGlobs) (notFoundLabel : string) : action (list string) :=
  labelsToAdd ← processPR_rules existingLabels changedFiles labelGlobs [];
  mret (if negb (bool_decide (notFoundLabel = "")) && (length labelsToAdd =? 0)%nat
        then labelsToAdd ++ [notFoundLabel]
        else labelsToAdd).

Definition processPR (prNumber : Z) (existingLabels : gset string)
    (labelGlobs : LabelGlobs) (notFoundLabel : string) : action bool :=
  try_catch
    (core.debug ("fetching changed files for pr #" +:+ JS.string_of_Z prNumber);;
     changedFiles ← getChangedFiles prNumber;
     labelsToAdd ← labelsToAdd existingLabels changedFiles labelGlobs notFoundLabel;
     if (0 <? length labelsToAdd)%nat
     then addLabels prNumber labelsToAdd;; mret true
     else mret false)
    (fun error =>
       core.error error;;
       core.setFailed (JS.message error);;
       mret false).

Record ThisPr : Type := { prNumber : Z; existingLabels : gset string }.

Definition getThisPr : JS.error + option ThisPr :=
  match pull_request w with
  | None => inr None
  | Some pullRequest =>
      match JS.call "pullRequest.labels" (payload_labels pullRequest) with
      | inl e => inl e
      | inr names =>
          inr (Some {| prNumber := payload_number pullRequest;
                       existingLabels := JS.new_Set names |})
      end
  end.

(** The body of [for (const pr of response)], turn by turn over the pull
    requests the statement iterates. *)
Fixpoint run_prs (labelGlobs : LabelGlobs) (notFoundLabel : string)
    (operationsPerRun : JS.number) (response : list PullRequest)
    (operationsLeft : JS.number) : action flow :=
  match response with
  | [] => mret (Next operationsLeft)
  | pr :: rest =>
      core.debug ("performing labeler at pr " +:+ JS.string_of_Z (number pr));;
      if JS.le operationsLeft (JS.Num 0)
      then
        core.warning ("performed " +:+ JS.number_to_string operationsPerRun
                      +:+ " operations, exiting to avoid rate limit");;
        mret Return
      else
        let existingLabels := JS.new_Set (map name (labels pr)) in
        labeled ← processPR (number pr) existingLabels labelGlobs notFoundLabel;
        run_prs labelGlobs notFoundLabel operationsPerRun rest
          (if labeled : bool then JS.sub operationsLeft (JS.Num 1) else operationsLeft)
  end.

(** The loop [for await (const response of client.paginate.iterator(opts))]:
    a page is requested when the loop asks for it, and the value the
    iterator yields is the response object of the request. *)
Fixpoint run_pages (labelGlobs : LabelGlobs) (notFoundLabel : string)
    (operationsPerRun : JS.number) (page : nat) (pages : list (JS.error + list PullRequest))
    (operationsLeft : JS.number) : action unit :=
  match pages with
  | [] => mret tt
  | request :: pages' =>
      response ← await (ListPulls page) (respond request);
      pulls ← ([], for_of "response" response);
      r ← run_prs labelGlobs notFoundLabel operationsPerRun pulls operationsLeft;
      match r with
      | Return => mret tt
      | Next operationsLeft =>
          run_pages labelGlobs notFoundLabel operationsPerRun (S page) pages' operationsLeft
      end
  end.

Definition run : action unit :=
  try_catch
    (token ← getInput "repo-token" true;
     configPath ← getInput "configuration-path" true;
     notFoundLabel ← getInput "not-found-label" false;
     operationsPerRun ← getInput "operations-per-run" true;
     let operationsPerRun := JS.parseInt operationsPerRun in
     (if JS.le operationsPerRun (JS.Num 0)
      then throw (JS.Error ("operations-per-run must be greater than zero, got "
                            +:+ JS.number_to_string operationsPerRun))
      else mret tt);;
     let operationsLeft := operationsPerRun in
     labelGlobs ← getLabelGlobs configPath;
     thisPr ← ([], getThisPr);
     match thisPr with
     | Some thisPr =>
         processPR (prNumber thisPr) (existingLabels thisPr) labelGlobs notFoundLabel;;
         mret tt
     | None =>
         run_pages labelGlobs notFoundLabel operationsPerRun 0%nat (pulls_list w) operationsLeft
     end)
    (fun error =>
       core.error error;;
       core.setFailed (JS.message error)).

End Program.

(** ** Observations on a run *)

(** The shapes [getLabelGlobMapFromObject] accepts for the value of a
    label: [typeof v === 'string'] or [v instanceof Array]. *)
Definition glob_shape (v : JS.value) : bool :=
  match v with
  | JS.Str _ | JS.Array _ => true
  | _ => false
  end.

Definition unexpected_type (label : string) : JS.error :=
  JS.Error ("found unexpected type for label " +:+ label
            +:+ " (should be string or array of globs)").

(** The pull requests whose changed files were requested, in order. *)
Definition evaluated (t : list event) : list Z :=
  omap (fun ev => match ev with ListFiles n => Some n | _ => None end) t.

(** The pull requests a label-add call was issued for, in order. *)
Definition labeled (t : list event) : list Z :=
  omap (fun ev => match ev with AddLabels n _ => Some n | _ => None end) t.

(** The pages of the listing that were requested, in order. *)
Definition fetched (t : list event) : list nat :=
  omap (fun ev => match ev with ListPulls page => Some page | _ => None end) t.

Definition warnings (t : list event) : list string :=
  omap (fun ev => match ev with Warning msg => Some msg | _ => None end) t.

(** The errors a trace reports, in order: the calls of [core.error] and of
    [core.setFailed], with what they were given. *)
Definition reported (t : list event) : list event :=
  omap (fun ev =>
          match ev with
          | LogError _ | SetFailed _ => Some ev
          | _ => None
          end) t.

(** The error of [for (const pr of response)]. *)
Definition not_iterable : JS.error := JS.TypeError "response is not iterable".

(** The debug line that opens the work on a pull request. *)
Definition fetching (prNumber : Z) : event :=
  Debug ("fetching changed files for pr #" +:+ JS.string_of_Z prNumber).

(** A trace of debug lines only. *)
Definition quiet (t : list event) : Prop :=
  Forall (fun ev => exists msg, ev = Debug msg) t.

(** The decision [processPR] reaches for a pull request: its changed files
    are fetched and [labelsToAdd] runs on them. *)
Definition decide (w : World) (labelGlobs : LabelGlobs) (notFoundLabel : string)
    (prNumber : Z) (existingLabels : gset string) : JS.error + list string :=
  match pulls_listFiles w prNumber with
  | inl e => inl e
  | inr changedFiles =>
      outcome (labelsToAdd existingLabels changedFiles labelGlobs notFoundLabel)
  end.

(** The decision for a pull request of the listing, on the set the sweep
    builds from its labels. *)
Definition decision (w : World) (labelGlobs : LabelGlobs) (notFoundLabel : string)
    (pr : PullRequest) : JS.error + list string :=
  decide w labelGlobs notFoundLabel (number pr) (JS.new_Set (name <$> labels pr)).

(** What follows the decision in [processPR]: the events and the result. *)
Definition settle (w : World) (prNumber : Z) (d : JS.error + list string)
  : list event * bool :=
  match d with
  | inl e => ([LogError e; SetFailed (JS.message e)], false)
  | inr [] => ([], false)
  | inr labels =>
      match issues_addLabels w prNumber labels with
      | None => ([AddLabels prNumber labels], true)
      | Some e =>
          ([AddLabels prNumber labels; LogError e; SetFailed (JS.message e)], false)
      end
  end.

(** The debug line that opens the turn of a pull request in the sweep. *)
Definition performing (pr : PullRequest) : event :=
  Debug ("performing labeler at pr " +:+ JS.string_of_Z (number pr)).

(** The warning of the sweep when the budget is used up. *)
Definition exhausted (operationsPerRun : JS.number) : event :=
  Warning ("performed " +:+ JS.number_to_string operationsPerRun
           +:+ " operations, exiting to avoid rate limit").

(** [processPR] on a pull request of the listing, as the sweep calls it. *)
Definition sweep_pr (w : World) (labelGlobs : LabelGlobs) (notFoundLabel : string)
    (pr : PullRequest) : action bool :=
  processPR w (number pr) (JS.new_Set (name <$> labels pr)) labelGlobs notFoundLabel.

(** The budget after the turn of a pull request. *)
Definition budget_after (w : World) (labelGlobs : LabelGlobs) (notFoundLabel : string)
    (pr : PullRequest) (operationsLeft : JS.number) : JS.number :=
  match outcome (sweep_pr w labelGlobs notFoundLabel pr) with
  | inr true => JS.sub operationsLeft (JS.Num 1)
  | _ => operationsLeft
  end.

(** A pull request requires a change when its decision is not empty. *)
Definition requires_change (w : World) (labelGlobs : LabelGlobs) (notFoundLabel : string)
    (pr : PullRequest) : Prop :=
  exists labels, decision w labelGlobs notFoundLabel pr = inr labels /\ labels <> [].

(** The run reaches the sweep: the required inputs are given, the budget
    passes the startup check, the configuration loads into a rule set, and
    no pull request triggered the run. *)
Record sweeps (w : World) (labelGlobs : LabelGlobs) (notFoundLabel : string)
    (operationsPerRun : JS.number) : Prop := {
  sweeps_token : input w "repo-token" <> "";
  sweeps_path : input w "configuration-path" <> "";
  sweeps_budget : input w "operations-per-run" <> "";
  sweeps_notFoundLabel : notFoundLabel = JS.trim (input w "not-found-label");
  sweeps_operationsPerRun :
    operationsPerRun = JS.parseInt (JS.trim (input w "operations-per-run"));
  sweeps_check : JS.le operationsPerRun (JS.Num 0) = false;
  sweeps_config : exists content configObject,
    repos_getContents w (JS.trim (input w "configuration-path")) = inr content /\
    yaml_safeLoad w content = inr configObject /\
    getLabelGlobMapFromObject configObject = inr labelGlobs;
  sweeps_no_pr : pull_request w = None
}.

(** The error of the startup check of the budget. *)
Definition startup_error (operationsPerRun : JS.number) : JS.error :=
  JS.Error ("operations-per-run must be greater than zero, got "
            +:+ JS.number_to_string operationsPerRun).

Definition is_digit (c : ascii) : bool :=
  let n := N_of_ascii c in ((48 <=? n) && (n <=? 57))%N.

(** An input that does not start with a number: after the leading white
    space and one sign comes no decimal digit. *)
Definition non_numeric (s : string) : bool :=
  let s := JS.trimStart s in
  let s :=
    match s with
    | String "-" rest => rest
    | String "+" rest => rest
    | _ => s
    end in
  match s with
  | String c _ => negb (is_digit c)
  | EmptyString => true
  end.

(** ** Scenarios *)

Module Scenario.

Definition config : JS.value :=
  JS.Object [("docs", JS.Array [JS.Str "docs/**"]); ("ts", JS.Array [JS.Str "*.ts"])].

Definition rules : LabelGlobs :=
  [("docs", [JS.Str "docs/**"]); ("ts", [JS.Str "*.ts"])].

Definition inputs (operations_per_run not_found_label : string) (name : string) : string :=
  if bool_decide (name = "repo-token") then "token"
  else if bool_decide (name = "configuration-path") then ".github/labeler.yml"
  else if bool_decide (name = "operations-per-run") then operations_per_run
  else if bool_decide (name = "not-found-label") then not_found_label
  else "".

(** A repository whose configuration is [config], with the given event
    payload and pages of open pull requests; every pull request changed the
    given files and every call succeeds. *)
Definition world (operations_per_run : string) (payload : option PullRequestPayload)
    (pages : list (list PullRequest)) (changedFiles : list string) : World :=
  {| input := inputs operations_per_run "";
     pull_request := payload;
     repos_getContents := fun _ => inr "docs: ['docs/**']";
     yaml_safeLoad := fun _ => inr config;
     pulls_list := inr <$> pages;
     pulls_listFiles := fun _ => inr changedFiles;
     issues_addLabels := fun _ _ => None |}.

Definition pr (n : Z) (label_names : list string) : PullRequest :=
  {| number := n; labels := Build_Label <$> label_names |}.

(** The same repository when the platform is down for one pull request:
    its changed files cannot be fetched. *)
Definition world_failing (operations_per_run : string) (down : Z)
    (pages : list (list PullRequest)) (changedFiles : list string) : World :=
  {| input := inputs operations_per_run "";
     pull_request := None;
     repos_getContents := fun _ => inr "docs: ['docs/**']";
     yaml_safeLoad := fun _ => inr config;
     pulls_list := inr <$> pages;
     pulls_listFiles := fun n =>
       if bool_decide (n = down) then inl (JS.Error_ "HttpError" "Not Found")
       else inr changedFiles;
     issues_addLabels := fun _ _ => None |}.

End Scenario.

(** ** Further observations *)

(** The patterns [getLabelGlobMapFromObject] stores for the value of a
    label: a string alone, the items of an array. *)
Definition globs_of (v : JS.value) : list JS.value :=
  match v with
  | JS.Str s => [JS.Str s]
  | JS.Array items => items
  | _ => []
  end.

(** A rule set whose patterns are all strings. *)
Definition string_rules (rules : list (string * list string)) : LabelGlobs :=
  (fun rule : string * list string => (rule.1, JS.Str <$> rule.2)) <$> rules.

(** A rule of string patterns selects its label when the label is not in
    the set of existing labels and one of its patterns matches one of the
    changed files. *)
Definition selects (existing : gset string) (changedFiles : list string)
    (rule : string * list string) : bool :=
  negb (bool_decide (rule.1 ∈ existing)) &&
  existsb (fun glob =>
    existsb (Minimatch.match_ (Minimatch.make glob)) changedFiles) rule.2.

(** The label-add calls of a trace, with their labels. *)
Definition adds (t : list event) : list (Z * list string) :=
  omap (fun ev => match ev with AddLabels n ls => Some (n, ls) | _ => None end) t.

(** The pull requests whose label-add call the platform accepted. *)
Definition succeeded (w : World) (t : list event) : list Z :=
  omap (fun ev =>
          match ev with
          | AddLabels n ls =>
              match issues_addLabels w n ls with
              | None => Some n
              | Some _ => None
              end
          | _ => None
          end) t.

(** A trace in which the run is marked failed for the logged errors and
    for nothing else: every [core.error] is followed at once by
    [core.setFailed] with the message of the error, and [core.setFailed]
    never comes alone. *)
Inductive marked : list event -> Prop :=
  | marked_nil : marked []
  | marked_error e t :
      marked t -> marked (LogError e :: SetFailed (JS.message e) :: t)
  | marked_other ev t :
      (forall e, ev <> LogError e) -> (forall msg, ev <> SetFailed msg) ->
      marked t -> marked (ev :: t).

Module Scenario2.

(** A repository whose configuration maps [size] to a number. *)
Definition world_bad_config : World :=
  {| input := Scenario.inputs "5" "";
     pull_request := None;
     repos_getContents := fun _ => inr "size: 3";
     yaml_safeLoad := fun _ => inr (JS.Object [("size", JS.Number "3")]);
     pulls_list := [inr [Scenario.pr 1 []]];
     pulls_listFiles := fun _ => inr ["docs/readme.md"];
     issues_addLabels := fun _ _ => None |}.

(** The repository of [Scenario.world] when the platform is down for the
    changed files of every pull request. *)
Definition world_down : World :=
  {| input := Scenario.inputs "5" "";
     pull_request := None;
     repos_getContents := fun _ => inr "docs: ['docs/**']";
     yaml_safeLoad := fun _ => inr Scenario.config;
     pulls_list := [inr [Scenario.pr 1 []; Scenario.pr 2 []]];
     pulls_listFiles := fun _ => inl (JS.Error_ "HttpError" "Not Found");
     issues_addLabels := fun _ _ => None |}.


End Scenario2.

(** * Properties *)

(** ** The JavaScript layer and the glob model on examples *)

Example parseInt_examples :
  JS.parseInt "20" = JS.Num 20 /\ JS.parseInt " -3x" = JS.Num (-3) /\
  JS.parseInt "0x1f" = JS.Num 31 /\ JS.parseInt "0" = JS.Num 0 /\
  JS.parseInt "abc" = JS.NaN /\ JS.parseInt "" = JS.NaN /\
  JS.parseInt "-" = JS.NaN /\ JS.parseInt "12.9" = JS.Num 12.
Proof. repeat split; reflexivity. Qed.

Example to_string_examples :
  JS.to_string (JS.Array [JS.Str "a"; JS.Null; JS.Number "3"]) = "a,,3" /\
  JS.number_to_string (JS.Num (-12)) = "-12" /\
  JS.number_to_string (JS.Num 0) = "0".
Proof. repeat split; reflexivity. Qed.

Example new_Set_examples :
  bool_decide ("docs" ∈ JS.new_Set ["docs"; "ts"]) = false /\
  bool_decide ("d" ∈ JS.new_Set ["docs"; "ts"]) = true /\
  bool_decide ("x" ∈ JS.new_Set ["x"]) = true.
Proof. repeat split; vm_compute; reflexivity. Qed.

Example minimatch_examples :
  Minimatch.match_ (Minimatch.make "src/**/*.ts") "src/a/b.ts" = true /\
  Minimatch.match_ (Minimatch.make "src/**/*.ts") "src/b.ts" = true /\
  Minimatch.match_ (Minimatch.make "src/**/*.ts") "src/a/b.js" = false /\
  Minimatch.match_ (Minimatch.make "src/**/*.ts") "lib/b.ts" = false /\
  Minimatch.match_ (Minimatch.make "*.ts") "app.ts" = true /\
  Minimatch.match_ (Minimatch.make "*.ts") "src/app.ts" = false /\
  Minimatch.match_ (Minimatch.make "*.ts") ".ts" = false /\
  Minimatch.match_ (Minimatch.make "docs/**") "docs/readme.md" = true /\
  Minimatch.match_ (Minimatch.make "docs/**") "docs" = false /\
  Minimatch.match_ (Minimatch.make "docs/**") "docs/.hidden/x" = false /\
  Minimatch.match_ (Minimatch.make "**") "a/b/c" = true /\
  Minimatch.match_ (Minimatch.make "!*.md") "a.ts" = true /\
  Minimatch.match_ (Minimatch.make "a?c") "abc" = true.
Proof. repeat split; vm_compute; reflexivity. Qed.

Example braceExpand_examples :
  Minimatch.braceExpand "*.{ts,js}" = ["*.ts"; "*.js"] /\
  Minimatch.braceExpand "{src,lib}/**/*.ts" = ["src/**/*.ts"; "lib/**/*.ts"] /\
  Minimatch.braceExpand "a{b,c{d,e}f}g" = ["abg"; "acdfg"; "acefg"] /\
  Minimatch.braceExpand "{a,b}{c,d}" = ["ac"; "ad"; "bc"; "bd"] /\
  Minimatch.braceExpand "{a}" = ["{a}"] /\
  Minimatch.braceExpand "{a,b" = ["{a,b"] /\
  Minimatch.braceExpand "*.ts" = ["*.ts"].
Proof. repeat split; vm_compute; reflexivity. Qed.

Example brace_and_bracket_examples :
  Minimatch.matches "*.{ts,js}" "a.ts" = true /\
  Minimatch.matches "*.{ts,js}" "a.js" = true /\
  Minimatch.matches "*.{ts,js}" "a.md" = false /\
  Minimatch.matches "{src,lib}/**" "lib/a/b.ts" = true /\
  Minimatch.matches "{src,lib}/**" "docs/a.md" = false /\
  Minimatch.matches "[ab].ts" "a.ts" = true /\
  Minimatch.matches "[ab].ts" "c.ts" = false /\
  Minimatch.matches "[a-c].ts" "b.ts" = true /\
  Minimatch.matches "[!a-c].ts" "b.ts" = false /\
  Minimatch.matches "[!a-c].ts" "d.ts" = true /\
  Minimatch.matches "[ab" "[ab" = true.
Proof. repeat split; vm_compute; reflexivity. Qed.

Example chars_examples :
  JS.chars "docs" = ["d"; "o"; "c"; "s"] /\
  JS.chars (String "195" (String "169" "a")) = [String "195" (String "169" ""); "a"].
Proof. repeat split; reflexivity. Qed.

(** ** Laws of the effect layer *)

Lemma trace_bind {A B} (m : action A) (f : A -> action B) :
  trace (m ≫= f) =
  trace m ++ match outcome m with inl _ => [] | inr a => trace (f a) end.
Proof.
  destruct m as [t [e | a]]; simpl.
  - by rewrite app_nil_r.
  - by destruct (f a).
Qed.

Lemma outcome_bind {A B} (m : action A) (f : A -> action B) :
  outcome (m ≫= f) =
  match outcome m with inl e => inl e | inr a => outcome (f a) end.
Proof.
  destruct m as [t [e | a]]; simpl; [done |]. by destruct (f a).
Qed.

(** ** The file matcher *)

(** The inner loop never throws: it answers whether the matcher accepts one
    of the files. *)
Lemma checkGlobs_files_outcome (matcher : string -> bool) (changedFiles : list string) :
  outcome (checkGlobs_files matcher changedFiles) = inr (existsb matcher changedFiles).
Proof.
  induction changedFiles as [| f fs IH]; [done |].
  cbn [checkGlobs_files existsb]. rewrite outcome_bind. cbn [outcome core.debug emit snd].
  destruct (matcher f); [done |]. exact IH.
Qed.

(** On patterns that are strings, [checkGlobs] is the double existential,
    whatever the matcher answers. *)
Lemma checkGlobs_with_outcome (matches : string -> string -> bool)
    (changedFiles globs : list string) :
  outcome (checkGlobs_with (Minimatch.construct matches) changedFiles (JS.Str <$> globs))
  = inr (existsb (fun glob => existsb (matches glob) changedFiles) globs).
Proof.
  induction globs as [| g gs IH]; [done |].
  cbn [checkGlobs_with fmap list_fmap existsb].
  rewrite outcome_bind. cbn [outcome core.debug emit snd].
  rewrite outcome_bind. cbn [outcome Minimatch.construct snd].
  rewrite outcome_bind, checkGlobs_files_outcome.
  destruct (existsb _ changedFiles); [done |]. exact IH.
Qed.

Lemma checkGlobs_outcome (changedFiles globs : list string) :
  outcome (checkGlobs changedFiles (JS.Str <$> globs))
  = inr (existsb (fun glob =>
           existsb (Minimatch.match_ (Minimatch.make glob)) changedFiles) globs).
Proof. apply checkGlobs_with_outcome. Qed.

(** C4. Whatever the matcher library answers for a pattern and a file, for
    all lists of changed files and of glob patterns [checkGlobs] returns a
    boolean, and it returns true exactly when some pattern of the list
    matches some file of the list; an empty file list or an empty pattern
    list gives false.  The program runs it with minimatch, under whose glob
    semantics [src/**/*.ts] matches [src/a/b.ts] and matches neither
    [src/a/b.js] nor [lib/b.ts], [*.{ts,js}] matches [a.ts] and [a.js], and
    [[ab].ts] matches [a.ts] and not [c.ts]. *)
Theorem checkGlobs_matches_any :
  (forall (matches : string -> string -> bool) (changedFiles globs : list string),
      (outcome (checkGlobs_with (Minimatch.construct matches) changedFiles (JS.Str <$> globs))
         = inr true <->
       exists glob file, glob ∈ globs /\ file ∈ changedFiles /\ matches glob file = true) /\
      (outcome (checkGlobs_with (Minimatch.construct matches) changedFiles (JS.Str <$> globs))
         = inr false <->
       ~ exists glob file, glob ∈ globs /\ file ∈ changedFiles /\ matches glob file = true)) /\
  (forall (matches : string -> string -> bool) (globs : list string),
      outcome (checkGlobs_with (Minimatch.construct matches) [] (JS.Str <$> globs))
        = inr false) /\
  (forall (matches : string -> string -> bool) (changedFiles : list string),
      outcome (checkGlobs_with (Minimatch.construct matches) changedFiles []) = inr false) /\
  (forall (changedFiles : list string) (globs : list JS.value),
      checkGlobs changedFiles globs
        = checkGlobs_with (Minimatch.construct Minimatch.matches) changedFiles globs) /\
  Minimatch.matches "src/**/*.ts" "src/a/b.ts" = true /\
  Minimatch.matches "src/**/*.ts" "src/a/b.js" = false /\
  Minimatch.matches "src/**/*.ts" "lib/b.ts" = false /\
  Minimatch.matches "*.{ts,js}" "a.ts" = true /\
  Minimatch.matches "*.{ts,js}" "a.js" = true /\
  Minimatch.matches "*.{ts,js}" "a.md" = false /\
  Minimatch.matches "[ab].ts" "a.ts" = true /\
  Minimatch.matches "[ab].ts" "c.ts" = false /\
  outcome (checkGlobs ["src/a/b.ts"] [JS.Str "src/**/*.ts"]) = inr true /\
  outcome (checkGlobs ["src/a/b.js"; "lib/b.ts"] [JS.Str "src/**/*.ts"]) = inr false /\
  outcome (checkGlobs ["README.md"; "a.ts"] [JS.Str "*.{ts,js}"; JS.Str "[ab].ts"]) = inr true /\
  (forall globs : list string, outcome (checkGlobs [] (JS.Str <$> globs)) = inr false) /\
  (forall changedFiles : list string, outcome (checkGlobs changedFiles []) = inr false).
Proof.
  assert (Hex : forall (matches : string -> string -> bool) (changedFiles globs : list string),
    existsb (fun glob => existsb (matches glob) changedFiles) globs = true <->
    exists glob file, glob ∈ globs /\ file ∈ changedFiles /\ matches glob file = true).
  { intros matches files globs. rewrite existsb_exists. split.
    - intros (g & Hg & Hm). apply existsb_exists in Hm as (f & Hf & Hm).
      exists g, f. by rewrite !list_elem_of_In.
    - intros (g & f & Hg & Hf & Hm). exists g. split; [by apply list_elem_of_In |].
      apply existsb_exists. exists f. split; [by apply list_elem_of_In | done]. }
  assert (Hnil : forall (matches : string -> string -> bool) (globs : list string),
    outcome (checkGlobs_with (Minimatch.construct matches) [] (JS.Str <$> globs))
      = inr false).
  { intros matches globs. rewrite checkGlobs_with_outcome.
    induction globs as [| g gs IH]; [done |]. exact IH. }
  split; [| split; [exact Hnil | repeat split; try (vm_compute; reflexivity)]].
  - intros matches files globs. rewrite checkGlobs_with_outcome, <- Hex.
    destruct (existsb _ globs); split; split; (congruence || done).
  - intros globs. apply Hnil.
Qed.

(** ** The label decision *)

Lemma outcome_labelsToAdd existing changedFiles labelGlobs notFoundLabel :
  outcome (labelsToAdd existing changedFiles labelGlobs notFoundLabel) =
  match outcome (processPR_rules existing changedFiles labelGlobs []) with
  | inl e => inl e
  | inr [] => inr (if bool_decide (notFoundLabel = "") then [] else [notFoundLabel])
  | inr found => inr found
  end.
Proof.
  unfold labelsToAdd. rewrite outcome_bind.
  destruct (outcome (processPR_rules _ _ _ _)) as [e | [| l ls]]; [done | |].
  - cbn. by destruct (bool_decide (notFoundLabel = "")).
  - cbn. by rewrite andb_false_r.
Qed.

(** C5. When the rules produced no label and a fallback label is configured
    (a non-empty input), the decision is the fallback alone; without a
    fallback it stays empty; when a rule produced a label the decision is
    the labels of the rules, the fallback is not appended. *)
Theorem fallback_only_when_nothing_matched
    (existing : gset string) (changedFiles : list string) (labelGlobs : LabelGlobs)
    (notFoundLabel : string) (found : list string)
    (Hrules : outcome (processPR_rules existing changedFiles labelGlobs []) = inr found) :
  (found = [] -> notFoundLabel <> "" ->
     outcome (labelsToAdd existing changedFiles labelGlobs notFoundLabel)
     = inr [notFoundLabel]) /\
  (found = [] -> notFoundLabel = "" ->
     outcome (labelsToAdd existing changedFiles labelGlobs notFoundLabel) = inr []) /\
  (found <> [] ->
     outcome (labelsToAdd existing changedFiles labelGlobs notFoundLabel) = inr found).
Proof.
  rewrite outcome_labelsToAdd, Hrules. repeat split.
  - intros -> Hne. by rewrite bool_decide_eq_false_2.
  - intros -> ->. done.
  - intros Hne. by destruct found.
Qed.

Lemma fallback_only_when_nothing_matched_witness :
  outcome (labelsToAdd ∅ ["README.md"] Scenario.rules "needs-triage") = inr ["needs-triage"] /\
  outcome (labelsToAdd ∅ ["README.md"] Scenario.rules "") = inr [] /\
  outcome (labelsToAdd ∅ ["docs/readme.md"] Scenario.rules "needs-triage") = inr ["docs"].
Proof.
  split; [| split].
  - destruct (fallback_only_when_nothing_matched ∅ ["README.md"] Scenario.rules
                "needs-triage" []) as (H & _ & _); [vm_compute; reflexivity |].
    apply H; [reflexivity | discriminate].
  - destruct (fallback_only_when_nothing_matched ∅ ["README.md"] Scenario.rules
                "" []) as (_ & H & _); [vm_compute; reflexivity |].
    apply H; reflexivity.
  - destruct (fallback_only_when_nothing_matched ∅ ["docs/readme.md"] Scenario.rules
                "needs-triage" ["docs"]) as (_ & _ & H); [vm_compute; reflexivity |].
    apply H; discriminate.
Defined.

(** ** The rule set *)

Lemma getLabelGlobMap_loop_rejects before label v after labelGlobs :
  Forall (fun entry => glob_shape entry.2 = true) before ->
  glob_shape v = false ->
  getLabelGlobMap_loop (before ++ (label, v) :: after) labelGlobs
  = inl (unexpected_type label).
Proof.
  intros Hbefore Hv. revert labelGlobs.
  induction Hbefore as [| [l x] before Hx _ IH]; intros labelGlobs.
  - cbn. by destruct v.
  - cbn. destruct x; try discriminate Hx; apply IH.
Qed.

(** The first entry of a list whose value has not the shape of a rule. *)
Lemma first_unexpected (props : list (string * JS.value)) :
  Exists (fun entry => glob_shape entry.2 = false) props ->
  exists before label v after,
    props = before ++ (label, v) :: after /\
    Forall (fun entry => glob_shape entry.2 = true) before /\
    glob_shape v = false.
Proof.
  induction props as [| [l x] props IH]; intros Hex; [by apply Exists_nil in Hex |].
  destruct (glob_shape x) eqn:Hx.
  - apply Exists_cons in Hex as [Hex | Hex]; [cbn in Hex; congruence |].
    destruct (IH Hex) as (before & label & v & after & -> & Hb & Hv).
    exists ((l, x) :: before), label, v, after. split; [done |].
    split; [by constructor | done].
  - exists [], l, x, props. done.
Qed.

(** C6. A configuration mapping with an entry whose value is neither a
    string nor an array (a number, an object, also the empty one, null, a
    boolean) makes the construction of the rule set throw; the error names
    the key of the first such entry, and no rule set is returned. *)
Theorem unexpected_value_is_rejected (props : list (string * JS.value))
    (Hbad : Exists (fun entry => glob_shape entry.2 = false) props) :
  (exists before label v after,
     props = before ++ (label, v) :: after /\
     Forall (fun entry => glob_shape entry.2 = true) before /\
     glob_shape v = false /\
     getLabelGlobMapFromObject (JS.Object props) = inl (unexpected_type label) /\
     JS.message (unexpected_type label)
     = "found unexpected type for label " +:+ label
       +:+ " (should be string or array of globs)") /\
  (forall labelGlobs, getLabelGlobMapFromObject (JS.Object props) <> inr labelGlobs) /\
  (forall printed props' b,
     glob_shape (JS.Number printed) = false /\ glob_shape (JS.Object props') = false /\
     glob_shape (JS.Object []) = false /\ glob_shape JS.Null = false /\
     glob_shape (JS.Bool b) = false).
Proof.
  destruct (first_unexpected props Hbad) as (before & label & v & after & -> & Hb & Hv).
  assert (Hr : getLabelGlobMapFromObject (JS.Object (before ++ (label, v) :: after))
               = inl (unexpected_type label)).
  { unfold getLabelGlobMapFromObject. cbn [JS.for_in].
    by apply getLabelGlobMap_loop_rejects. }
  split; [| split].
  - exists before, label, v, after. done.
  - intros labelGlobs. rewrite Hr. discriminate.
  - done.
Qed.

Lemma unexpected_value_is_rejected_witness :
  let props := [("docs", JS.Str "docs/**"); ("size", JS.Number "3"); ("ts", JS.Null)] in
  (exists label, getLabelGlobMapFromObject (JS.Object props) = inl (unexpected_type label)) /\
  (forall labelGlobs, getLabelGlobMapFromObject (JS.Object props) <> inr labelGlobs).
Proof.
  intros props.
  destruct (unexpected_value_is_rejected props)
    as [(before & label & v & after & _ & _ & _ & Hr & _) [Hno _]].
  - apply Exists_cons_tl, Exists_cons_hd. reflexivity.
  - split; [exists label; exact Hr | exact Hno].
Defined.

Example unexpected_value_names_first_key :
  getLabelGlobMapFromObject
    (JS.Object [("docs", JS.Str "docs/**"); ("size", JS.Number "3"); ("ts", JS.Null)])
  = inl (JS.Error "found unexpected type for label size (should be string or array of globs)").
Proof. reflexivity. Qed.

Example rules_of_scenario :
  getLabelGlobMapFromObject Scenario.config = inr Scenario.rules /\
  getLabelGlobMapFromObject (JS.Object [("bug", JS.Str "**/*.patch"); ("none", JS.Array [])])
  = inr [("bug", [JS.Str "**/*.patch"]); ("none", [])].
Proof. split; reflexivity. Qed.

(** The labels the rules produce are appended to the accumulator in rule
    order, and none of them is in the set of existing labels the loop was
    given. *)
Lemma processPR_rules_sound existing changedFiles entries acc found :
  outcome (processPR_rules existing changedFiles entries acc) = inr found ->
  exists new, found = acc ++ new /\ sublist new entries.*1 /\
              Forall (fun label => label ∉ existing) new.
Proof.
  revert acc. induction entries as [| [label globs] entries IH]; intros acc.
  - cbn. intros [= <-]. exists []. by rewrite app_nil_r.
  - cbn [processPR_rules]. rewrite outcome_bind. cbn [outcome core.debug emit snd].
    destruct (bool_decide (label ∈ existing)) eqn:Hin.
    + rewrite outcome_bind. cbn [outcome core.debug emit snd].
      intros H. destruct (IH _ H) as (new & -> & Hsub & Hnot).
      exists new. split; [done |]. split; [by apply sublist_cons | done].
    + rewrite outcome_bind. destruct (outcome (checkGlobs _ _)) as [e | hit]; [done |].
      intros H. destruct (IH _ H) as (new & -> & Hsub & Hnot).
      destruct hit.
      * exists (label :: new). rewrite <- app_assoc. split; [done |].
        split; [by apply sublist_skip |]. constructor; [| done].
        by apply bool_decide_eq_false in Hin.
      * exists new. split; [done |]. split; [by apply sublist_cons | done].
Qed.

(** C9, as the specification states it, fails: with the rules
    [{docs: [docs/**], ts: [*.ts]}], the changed files [docs/readme.md] and
    [src/app.ts] and no existing label, the decision is not [docs; ts]. *)
Lemma scenario_decision_is_not_docs_ts :
  getLabelGlobMapFromObject Scenario.config = inr Scenario.rules /\
  outcome (labelsToAdd (JS.new_Set []) ["docs/readme.md"; "src/app.ts"] Scenario.rules "")
  <> inr ["docs"; "ts"].
Proof. split; [reflexivity | vm_compute; discriminate]. Qed.

(** C9, amended.  In that scenario the decision is [docs] alone: [*.ts]
    matches a path without directory part only, so it does not match
    [src/app.ts].  With the changed files [docs/readme.md] and [app.ts] the
    decision is [docs; ts]; the labels come in the order of the rules. *)
Theorem scenario_decision :
  getLabelGlobMapFromObject Scenario.config = inr Scenario.rules /\
  outcome (labelsToAdd (JS.new_Set []) ["docs/readme.md"; "src/app.ts"] Scenario.rules "")
  = inr ["docs"] /\
  Minimatch.match_ (Minimatch.make "*.ts") "src/app.ts" = false /\
  outcome (labelsToAdd (JS.new_Set []) ["docs/readme.md"; "app.ts"] Scenario.rules "")
  = inr ["docs"; "ts"] /\
  outcome (labelsToAdd (JS.new_Set []) ["docs/readme.md"; "app.ts"]
             (reverse Scenario.rules) "")
  = inr ["ts"; "docs"].
Proof. repeat split; vm_compute; reflexivity. Qed.

(** ** Traces of the decision: debug lines only *)

Lemma quiet_app t1 t2 : quiet t1 -> quiet t2 -> quiet (t1 ++ t2).
Proof. apply Forall_app_2. Qed.

Lemma quiet_debug msg t : quiet t -> quiet (Debug msg :: t).
Proof. intros H. constructor; [by exists msg | done]. Qed.

Lemma quiet_observed t :
  quiet t -> evaluated t = [] /\ labeled t = [] /\ fetched t = [] /\ warnings t = [].
Proof.
  induction 1 as [| ev t [msg ->] _ IH]; [done |]. exact IH.
Qed.

Lemma evaluated_app t1 t2 : evaluated (t1 ++ t2) = evaluated t1 ++ evaluated t2.
Proof. apply omap_app. Qed.

Lemma labeled_app t1 t2 : labeled (t1 ++ t2) = labeled t1 ++ labeled t2.
Proof. apply omap_app. Qed.

Lemma fetched_app t1 t2 : fetched (t1 ++ t2) = fetched t1 ++ fetched t2.
Proof. apply omap_app. Qed.

Lemma warnings_app t1 t2 : warnings (t1 ++ t2) = warnings t1 ++ warnings t2.
Proof. apply omap_app. Qed.

Lemma evaluated_cons ev t : evaluated (ev :: t) = evaluated [ev] ++ evaluated t.
Proof. exact (evaluated_app [ev] t). Qed.

Lemma labeled_cons ev t : labeled (ev :: t) = labeled [ev] ++ labeled t.
Proof. exact (labeled_app [ev] t). Qed.

Lemma fetched_cons ev t : fetched (ev :: t) = fetched [ev] ++ fetched t.
Proof. exact (fetched_app [ev] t). Qed.

Lemma warnings_cons ev t : warnings (ev :: t) = warnings [ev] ++ warnings t.
Proof. exact (warnings_app [ev] t). Qed.

Lemma quiet_bind {A B} (m : action A) (f : A -> action B) :
  quiet (trace m) -> (forall a, quiet (trace (f a))) -> quiet (trace (m ≫= f)).
Proof.
  intros Hm Hf. rewrite trace_bind. apply quiet_app; [done |].
  destruct (outcome m); [constructor | apply Hf].
Qed.

Lemma quiet_checkGlobs_files matcher changedFiles :
  quiet (trace (checkGlobs_files matcher changedFiles)).
Proof.
  induction changedFiles as [| f fs IH]; [constructor |].
  cbn [checkGlobs_files]. apply quiet_bind; [by apply quiet_debug; constructor |].
  intros _. destruct (matcher f); [| done].
  apply quiet_bind; [by apply quiet_debug; constructor | intros; constructor].
Qed.

Lemma quiet_checkGlobs changedFiles globs :
  quiet (trace (checkGlobs changedFiles globs)).
Proof.
  unfold checkGlobs. induction globs as [| g gs IH]; [constructor |].
  cbn [checkGlobs_with]. apply quiet_bind; [by apply quiet_debug; constructor |].
  intros _. apply quiet_bind; [constructor |].
  intros matcher. apply quiet_bind; [apply quiet_checkGlobs_files |].
  intros [|]; [constructor | done].
Qed.

Lemma quiet_processPR_rules existing changedFiles entries acc :
  quiet (trace (processPR_rules existing changedFiles entries acc)).
Proof.
  revert acc. induction entries as [| [label globs] entries IH]; intros acc; [constructor |].
  cbn [processPR_rules]. apply quiet_bind; [by apply quiet_debug; constructor |].
  intros _. destruct (bool_decide (label ∈ existing)).
  - apply quiet_bind; [by apply quiet_debug; constructor | intros; apply IH].
  - apply quiet_bind; [apply quiet_checkGlobs | intros; apply IH].
Qed.

Lemma quiet_labelsToAdd existing changedFiles labelGlobs notFoundLabel :
  quiet (trace (labelsToAdd existing changedFiles labelGlobs notFoundLabel)).
Proof.
  unfold labelsToAdd. apply quiet_bind; [apply quiet_processPR_rules |].
  intros; constructor.
Qed.

Lemma mapM_debug (f : string -> string) (files : list string) :
  quiet (trace (mapM (fun file => core.debug (f file)) files)) /\
  outcome (mapM (fun file => core.debug (f file)) files) = inr (const tt <$> files).
Proof.
  induction files as [| file files [IHt IHo]]; [by split; [constructor |] |].
  cbn [mapM]. split.
  - apply quiet_bind; [by apply quiet_debug; constructor |].
    intros u. apply quiet_bind; [done | intros; constructor].
  - rewrite outcome_bind. cbn [outcome core.debug emit snd].
    rewrite outcome_bind, IHo. done.
Qed.

(** ** One pull request *)

Section OnePullRequest.

Variable w : World.

Lemma getChangedFiles_run prNumber :
  exists t, quiet t /\
  getChangedFiles w prNumber =
  match pulls_listFiles w prNumber with
  | inl e => ([ListFiles prNumber], inl e)
  | inr changedFiles => (ListFiles prNumber :: t, inr changedFiles)
  end.
Proof.
  unfold getChangedFiles, await.
  destruct (pulls_listFiles w prNumber) as [e | changedFiles].
  { exists []. split; [constructor | done]. }
  destruct (mapM_debug (fun file => "  " +:+ file) changedFiles) as [Hq Ho].
  cbv beta in Hq, Ho. cbn [mbind action_bind core.debug emit]. cbv beta.
  destruct (mapM _ changedFiles) as [tm om]. cbn in Hq, Ho. subst om.
  exists (Debug "found changed files:" :: tm). split; [by apply quiet_debug |].
  cbn. by rewrite !app_nil_r.
Qed.

(** What [processPR] does: a debug line, the request for the changed
    files, the debug lines of the decision, then what [settle] tells: an
    error is logged and fails the run, an empty decision ends the turn, a
    decision is sent in one label-add call.  It never throws, and it
    returns true only when the label-add call succeeded. *)
Lemma processPR_cases prNumber existing labelGlobs notFoundLabel :
  let d := decide w labelGlobs notFoundLabel prNumber existing in
  exists t, quiet t /\
  processPR w prNumber existing labelGlobs notFoundLabel =
  ([fetching prNumber; ListFiles prNumber] ++ t ++ (settle w prNumber d).1,
   inr (settle w prNumber d).2).
Proof.
  destruct (getChangedFiles_run prNumber) as (tf & Hf & Ef).
  unfold processPR, decide. rewrite Ef. unfold addLabels, await, fetching.
  destruct (pulls_listFiles w prNumber) as [e | changedFiles].
  { exists []. split; [constructor | done]. }
  pose proof (quiet_labelsToAdd existing changedFiles labelGlobs notFoundLabel) as Hl.
  cbn [mbind action_bind core.debug emit]. cbv beta.
  destruct (labelsToAdd existing changedFiles labelGlobs notFoundLabel)
    as [tl [e | [| l ls]]]; cbn in Hl |- *.
  - exists (tf ++ tl). split; [by apply quiet_app |].
    by rewrite ?app_nil_r, <- ?app_assoc.
  - exists (tf ++ tl). split; [by apply quiet_app |].
    by rewrite ?app_nil_r, <- ?app_assoc.
  - set (msg := "adding labels to pr #{prNumber}: " +:+ _).
    exists (tf ++ tl ++ [Debug msg]). split.
    + apply quiet_app; [done |]. apply quiet_app; [done |].
      by apply quiet_debug; constructor.
    + destruct (issues_addLabels w prNumber (l :: ls)) as [e |]; cbn;
        by rewrite ?app_nil_r, <- ?app_assoc.
Qed.

Lemma settle_true prNumber d :
  (settle w prNumber d).2 = true <->
  exists labels, d = inr labels /\ labels <> [] /\ issues_addLabels w prNumber labels = None.
Proof.
  destruct d as [e | [| l ls]]; cbn.
  - split; [done | by intros (? & ? & _)].
  - split; [done | by intros (? & [= <-] & ? & _)].
  - destruct (issues_addLabels w prNumber (l :: ls)) eqn:Hadd; cbn.
    + split; [done |]. intros (? & [= <-] & _ & ?). congruence.
    + split; [| done]. intros _. by exists (l :: ls).
Qed.

Lemma settle_observed prNumber d :
  evaluated (settle w prNumber d).1 = [] /\
  fetched (settle w prNumber d).1 = [] /\
  warnings (settle w prNumber d).1 = [] /\
  labeled (settle w prNumber d).1 =
    match d with
    | inr (_ :: _) => [prNumber]
    | _ => []
    end.
Proof.
  destruct d as [e | [| l ls]]; cbn; [done | done |].
  by destruct (issues_addLabels w prNumber (l :: ls)).
Qed.

End OnePullRequest.

(** ** The sweep *)

Section Sweep.

Variable w : World.
Variable labelGlobs : LabelGlobs.
Variable notFoundLabel : string.
Variable operationsPerRun : JS.number.

(** [processPR] always returns: true when it added labels, false
    otherwise, also after an error. *)
Lemma sweep_pr_returns pr :
  outcome (sweep_pr w labelGlobs notFoundLabel pr)
  = inr (settle w (number pr) (decision w labelGlobs notFoundLabel pr)).2.
Proof.
  unfold sweep_pr, decision.
  by destruct (processPR_cases w (number pr) (JS.new_Set (name <$> labels pr))
                 labelGlobs notFoundLabel) as (t & _ & ->).
Qed.

(** It returns true exactly when the decision is not empty and the
    label-add call succeeded. *)
Lemma sweep_pr_true pr :
  outcome (sweep_pr w labelGlobs notFoundLabel pr) = inr true <->
  exists labels, decision w labelGlobs notFoundLabel pr = inr labels /\ labels <> [] /\
                 issues_addLabels w (number pr) labels = None.
Proof.
  rewrite sweep_pr_returns, <- settle_true. split; congruence.
Qed.

(** The calls of one turn: the changed files are requested once, no page
    is requested, no warning is logged, and a label-add call is issued
    exactly when the decision is not empty. *)
Lemma sweep_pr_observed pr :
  evaluated (trace (sweep_pr w labelGlobs notFoundLabel pr)) = [number pr] /\
  fetched (trace (sweep_pr w labelGlobs notFoundLabel pr)) = [] /\
  warnings (trace (sweep_pr w labelGlobs notFoundLabel pr)) = [] /\
  labeled (trace (sweep_pr w labelGlobs notFoundLabel pr)) =
    match decision w labelGlobs notFoundLabel pr with
    | inr (_ :: _) => [number pr]
    | _ => []
    end.
Proof.
  unfold sweep_pr, decision.
  destruct (processPR_cases w (number pr) (JS.new_Set (name <$> labels pr))
              labelGlobs notFoundLabel) as (t & Hq & ->).
  destruct (quiet_observed t Hq) as (He & Hl & Hf & Hw).
  destruct (settle_observed w (number pr)
              (decide w labelGlobs notFoundLabel (number pr)
                 (JS.new_Set (name <$> labels pr)))) as (Se & Sf & Sw & Sl).
  cbn [trace fst].
  rewrite !evaluated_app, !fetched_app, !warnings_app, !labeled_app.
  rewrite He, Hl, Hf, Hw, Se, Sf, Sw, Sl. done.
Qed.

(** One turn of the inner loop. *)
Lemma run_prs_cons pr rest operationsLeft :
  run_prs w labelGlobs notFoundLabel operationsPerRun (pr :: rest) operationsLeft =
  if JS.le operationsLeft (JS.Num 0)
  then ([performing pr; exhausted operationsPerRun], inr Return)
  else
    let next := run_prs w labelGlobs notFoundLabel operationsPerRun rest (budget_after w labelGlobs notFoundLabel pr operationsLeft) in
    (performing pr :: trace (sweep_pr w labelGlobs notFoundLabel pr) ++ trace next, outcome next).
Proof.
  cbn [run_prs]. unfold budget_after, performing, exhausted.
  destruct (JS.le operationsLeft (JS.Num 0)); [done |].
  pose proof (sweep_pr_returns pr) as Hb. unfold sweep_pr in *.
  destruct (processPR w (number pr) _ labelGlobs notFoundLabel) as [t o].
  cbn in Hb. subst o. cbn.
  destruct (settle w _ _).2; by destruct (run_prs _ _ _ _ _ _).
Qed.


(** The inner loop over pull requests that all consume budget: it works on
    the first [k] of them, [k] being the budget, and returns at the next. *)
Lemma run_prs_all_change prs (k : nat) :
  (forall pr, pr ∈ prs -> outcome (sweep_pr w labelGlobs notFoundLabel pr) = inr true) ->
  let r := run_prs w labelGlobs notFoundLabel operationsPerRun prs (JS.Num (Z.of_nat k)) in
  outcome r = inr (if (k <? length prs)%nat then Return
                   else Next (JS.Num (Z.of_nat (k - length prs)))) /\
  evaluated (trace r) = number <$> take k prs /\
  labeled (trace r) = number <$> take k prs /\
  fetched (trace r) = [] /\
  warnings (trace r) = if (k <? length prs)%nat then warnings [exhausted operationsPerRun]
                       else [].
Proof.
  revert k. induction prs as [| pr rest IH]; intros k Hall r; subst r.
  { cbn. rewrite Nat.sub_0_r, take_nil. done. }
  rewrite run_prs_cons. destruct k as [| k].
  { done. }
  replace (JS.le (JS.Num (Z.of_nat (S k))) (JS.Num 0)) with false
    by (symmetry; apply Z.leb_gt; lia).
  assert (Hpr : outcome (sweep_pr w labelGlobs notFoundLabel pr) = inr true)
    by (apply Hall; left).
  unfold budget_after. rewrite Hpr. cbn [JS.sub].
  replace (Z.of_nat (S k) - 1) with (Z.of_nat k) by lia.
  destruct (IH k) as (Ho & He & Hl & Hf & Hw).
  { intros pr' Hin. apply Hall. by right. }
  destruct (sweep_pr_observed pr) as (Se & Sf & Sw & Sl).
  apply sweep_pr_true in Hpr as (ls & Hd & Hne & _). rewrite Hd in Sl.
  destruct ls as [| l ls]; [done |].
  cbn [trace fst outcome snd length take fmap list_fmap].
  change (S k <? S (length rest))%nat with (k <? length rest)%nat.
  change (S k - S (length rest))%nat with (k - length rest)%nat.
  unfold performing.
  rewrite evaluated_cons, labeled_cons, fetched_cons, warnings_cons.
  rewrite !evaluated_app, !labeled_app, !fetched_app, !warnings_app.
  rewrite Ho, He, Hl, Hf, Hw, Se, Sf, Sw, Sl. done.
Qed.

(** A budget that is NaN stays NaN, the test of the budget never holds,
    and the inner loop goes through all the pull requests it is given. *)
Lemma run_prs_NaN prs :
  let r := run_prs w labelGlobs notFoundLabel operationsPerRun prs JS.NaN in
  outcome r = inr (Next JS.NaN) /\
  evaluated (trace r) = number <$> prs /\
  fetched (trace r) = [] /\
  warnings (trace r) = [].
Proof.
  induction prs as [| pr rest (Ho & He & Hf & Hw)]; [done |].
  cbn zeta. rewrite run_prs_cons. cbn [JS.le].
  assert (Hb : budget_after w labelGlobs notFoundLabel pr JS.NaN = JS.NaN).
  { unfold budget_after.
    destruct (outcome (sweep_pr w labelGlobs notFoundLabel pr)) as [e | [|]]; reflexivity. }
  rewrite Hb. destruct (sweep_pr_observed pr) as (Se & Sf & Sw & _).
  cbn [trace fst outcome snd fmap list_fmap]. unfold performing.
  rewrite evaluated_cons, warnings_cons, fetched_cons.
  rewrite !evaluated_app, !warnings_app, !fetched_app.
  rewrite Ho, He, Hf, Hw, Se, Sf, Sw. done.
Qed.

(** One turn of the outer loop: the page is requested and the turn ends
    there, with the error of the request or, when the page was delivered,
    with the error of the iteration over the response object.  The body of
    the inner loop is not reached. *)
Lemma run_pages_request page request pages operationsLeft :
  run_pages w labelGlobs notFoundLabel operationsPerRun page (request :: pages) operationsLeft
  = ([ListPulls page],
     inl (match request with inl e => e | inr _ => not_iterable end)).
Proof. by destruct request. Qed.

End Sweep.

(** ** The whole run *)

Lemma getInput_given w name required :
  input w name <> "" -> getInput w name required = ([], inr (JS.trim (input w name))).
Proof.
  intros H. unfold getInput. rewrite (bool_decide_eq_false_2 _ H).
  by rewrite andb_false_r.
Qed.

Lemma getInput_optional w name :
  getInput w name false = ([], inr (JS.trim (input w name))).
Proof. reflexivity. Qed.

Lemma getInput_missing w name :
  input w name = "" ->
  getInput w name true
  = ([], inl (JS.Error ("Input required and not supplied: " +:+ name))).
Proof. intros H. unfold getInput. by rewrite H. Qed.

(** In sweep mode the run is the request for the configuration followed by
    the loop over the pages, inside the outer [try]. *)
Lemma run_sweeps w labelGlobs notFoundLabel operationsPerRun :
  sweeps w labelGlobs notFoundLabel operationsPerRun ->
  let sweep := run_pages w labelGlobs notFoundLabel operationsPerRun 0%nat
                 (pulls_list w) operationsPerRun in
  run w =
  try_catch
    (GetContents (JS.trim (input w "configuration-path")) :: trace sweep, outcome sweep)
    (fun error => core.error error;; core.setFailed (JS.message error)).
Proof.
  intros [Htoken Hpath Hbudget -> -> Hcheck (content & configObject & Hc & Hy & Hg) Hpr].
  unfold run.
  rewrite (getInput_given w "repo-token") by done.
  rewrite (getInput_given w "configuration-path") by done.
  rewrite (getInput_given w "operations-per-run") by done.
  rewrite getInput_optional.
  cbn [mbind action_bind mret action_ret]. cbv beta.
  rewrite Hcheck. unfold getLabelGlobs, fetchContent, await, getThisPr.
  rewrite Hc, Hpr. cbn [mbind action_bind mret action_ret]. cbv beta.
  rewrite Hy. cbn [mbind action_bind mret action_ret]. cbv beta.
  rewrite Hg. cbn [mbind action_bind mret action_ret app]. cbv beta.
  by destruct (run_pages _ _ _ _ _ _ _) as [t [e | []]].
Qed.

(** The run in sweep mode, in full: after the configuration the first page
    of the listing is requested, and the run ends in the outer [catch],
    with the error of the request or with the error of the iteration. *)
Lemma run_sweep_result w labelGlobs notFoundLabel operationsPerRun :
  sweeps w labelGlobs notFoundLabel operationsPerRun ->
  run w =
  match pulls_list w with
  | [] => ([GetContents (JS.trim (input w "configuration-path"))], inr tt)
  | request :: _ =>
      let e := match request with inl e => e | inr _ => not_iterable end in
      ([GetContents (JS.trim (input w "configuration-path")); ListPulls 0;
        LogError e; SetFailed (JS.message e)], inr tt)
  end.
Proof.
  intros Hsweep. rewrite (run_sweeps _ _ _ _ Hsweep). cbn zeta.
  destruct (pulls_list w) as [| request pages]; [done |].
  by rewrite run_pages_request.
Qed.

(** The ways a run can go.  It ends before anything is requested, when a
    required input is missing or the budget is rejected.  Otherwise the
    budget passed the check and the configuration is requested; then the
    run ends there (no page to list), or with an error and nothing else
    requested (the configuration, or the payload of a pull request), or
    with the request for the first page of the listing and an error. *)
Lemma run_cases w :
  (exists e, run w = ([LogError e; SetFailed (JS.message e)], inr tt)) \/
  JS.le (JS.parseInt (JS.trim (input w "operations-per-run"))) (JS.Num 0) = false /\
  (run w = ([GetContents (JS.trim (input w "configuration-path"))], inr tt) \/
   (exists e, run w = ([GetContents (JS.trim (input w "configuration-path"));
                        LogError e; SetFailed (JS.message e)], inr tt)) \/
   (exists e, run w = ([GetContents (JS.trim (input w "configuration-path")); ListPulls 0;
                        LogError e; SetFailed (JS.message e)], inr tt))).
Proof.
  destruct (base.decide (input w "repo-token" = "")) as [Htoken | Htoken].
  { left. unfold run. rewrite (getInput_missing w "repo-token") by done. by eexists. }
  destruct (base.decide (input w "configuration-path" = "")) as [Hpath | Hpath].
  { left. unfold run. rewrite (getInput_given w "repo-token") by done.
    rewrite (getInput_missing w "configuration-path") by done. by eexists. }
  destruct (base.decide (input w "operations-per-run" = "")) as [Hbudget | Hbudget].
  { left. unfold run. rewrite (getInput_given w "repo-token") by done.
    rewrite (getInput_given w "configuration-path") by done.
    rewrite getInput_optional.
    rewrite (getInput_missing w "operations-per-run") by done. by eexists. }
  unfold run.
  rewrite (getInput_given w "repo-token") by done.
  rewrite (getInput_given w "configuration-path") by done.
  rewrite (getInput_given w "operations-per-run") by done.
  rewrite getInput_optional.
  cbn [mbind action_bind mret action_ret]. cbv beta.
  destruct (JS.le _ (JS.Num 0)); [left; by eexists |].
  right. split; [done |].
  unfold getLabelGlobs, fetchContent, await.
  cbn [mbind action_bind mret action_ret]. cbv beta.
  destruct (repos_getContents w _) as [e | content]; [right; left; by eexists |].
  cbn [mbind action_bind mret action_ret]. cbv beta.
  destruct (yaml_safeLoad w content) as [e | configObject]; [right; left; by eexists |].
  cbn [mbind action_bind mret action_ret]. cbv beta.
  destruct (getLabelGlobMapFromObject configObject) as [e | labelGlobs];
    [right; left; by eexists |].
  cbn [mbind action_bind mret action_ret]. cbv beta.
  unfold getThisPr. destruct (pull_request w) as [payload |]; [right; left; by eexists |].
  cbn [mbind action_bind mret action_ret app]. cbv beta.
  destruct (pulls_list w) as [| request pages]; [by left |].
  right. right. rewrite run_pages_request. by eexists.
Qed.

(** No run asks for the changed files of a pull request, issues a
    label-add call or logs a warning, and the only page of the listing a
    run requests is the first. *)
Lemma run_observed w :
  evaluated (trace (run w)) = [] /\ labeled (trace (run w)) = [] /\
  warnings (trace (run w)) = [] /\
  (fetched (trace (run w)) = [] \/ fetched (trace (run w)) = [0%nat]).
Proof.
  destruct (run_cases w) as [(e & ->) | (_ & [-> | [(e & ->) | (e & ->)]])];
    cbn; auto.
Qed.

Lemma scenario_sweeps ops payload pages changedFiles :
  payload = None ->
  JS.le (JS.parseInt (JS.trim ops)) (JS.Num 0) = false ->
  ops <> "" ->
  sweeps (Scenario.world ops payload pages changedFiles) Scenario.rules ""
    (JS.parseInt (JS.trim ops)).
Proof.
  intros -> Hle Hne. split; try done.
  by exists "docs: ['docs/**']", Scenario.config.
Qed.

(** C2, on the code: in sweep mode, when the first page of the listing is
    delivered, the run requests that page and then iterates the response
    object itself (line 46), which throws.  The error goes to the outer
    [catch] and the run is marked failed; no request for changed files and
    no label-add call is issued and the warning of the budget is not
    logged, whatever the budget and whatever pull requests the page holds:
    of the [K] label-add calls the specification states for a budget [K]
    below the number of pull requests that require a change, none is
    made. *)
Theorem sweep_throws_on_the_first_page
    (w : World) (labelGlobs : LabelGlobs) (notFoundLabel : string)
    (operationsPerRun : JS.number) (pulls : list PullRequest)
    (pages : list (JS.error + list PullRequest))
    (Hsweep : sweeps w labelGlobs notFoundLabel operationsPerRun)
    (Hpages : pulls_list w = inr pulls :: pages) :
  run w = ([GetContents (JS.trim (input w "configuration-path")); ListPulls 0;
            LogError (JS.TypeError "response is not iterable");
            SetFailed "response is not iterable"], inr tt) /\
  evaluated (trace (run w)) = [] /\
  labeled (trace (run w)) = [] /\
  warnings (trace (run w)) = [].
Proof. by rewrite (run_sweep_result _ _ _ _ Hsweep), Hpages. Qed.

(** The failing input: a budget of one, two open pull requests that each
    require a change.  The run issues no label-add call; the body of the
    loop, had it been given the pull requests of the page, issues the one
    call of the budget. *)
Lemma sweep_throws_on_the_first_page_witness :
  let pulls := [Scenario.pr 1 []; Scenario.pr 2 []] in
  let w := Scenario.world "1" None [pulls] ["docs/readme.md"] in
  Forall (requires_change w Scenario.rules "") pulls /\
  JS.parseInt (JS.trim (input w "operations-per-run")) = JS.Num 1 /\
  labeled (trace (run w)) = [] /\
  labeled (trace (run_prs w Scenario.rules "" (JS.Num 1) pulls (JS.Num 1))) = [1].
Proof.
  intros pulls w.
  destruct (sweep_throws_on_the_first_page w Scenario.rules "" (JS.Num 1) pulls [])
    as (_ & _ & Hl & _).
  - by apply (scenario_sweeps "1").
  - reflexivity.
  - split; [| split; [reflexivity | split; [exact Hl | vm_compute; reflexivity]]].
    repeat constructor; exists ["docs"]; (split; [vm_compute; reflexivity | discriminate]).
Defined.

Example sweep_run :
  run (Scenario.world "5" None [[Scenario.pr 1 ["docs"]]; [Scenario.pr 2 []]]
         ["docs/readme.md"])
  = ([GetContents ".github/labeler.yml"; ListPulls 0;
      LogError (JS.TypeError "response is not iterable");
      SetFailed "response is not iterable"], inr tt).
Proof. vm_compute. reflexivity. Qed.



(** ** Errors in the turn of a pull request *)

Lemma reported_app t1 t2 : reported (t1 ++ t2) = reported t1 ++ reported t2.
Proof. apply omap_app. Qed.

Lemma quiet_reported t : quiet t -> reported t = [].
Proof. induction 1 as [| ev t [msg ->] _ IH]; [done |]. exact IH. Qed.

(** C8, as the specification states it, fails: the errors that are
    reported do not name the pull request.  When the changed files of the
    pull requests 1 and 2 cannot be fetched, [processPR] reports for both
    the same: the error as the platform raised it, and its message; the
    number of the pull request is in the debug lines only. *)
Lemma error_is_logged_without_the_pull_request :
  let w := Scenario2.world_down in
  reported (trace (sweep_pr w Scenario.rules "" (Scenario.pr 1 [])))
    = [LogError (JS.Error_ "HttpError" "Not Found"); SetFailed "Not Found"] /\
  reported (trace (sweep_pr w Scenario.rules "" (Scenario.pr 2 [])))
    = [LogError (JS.Error_ "HttpError" "Not Found"); SetFailed "Not Found"] /\
  trace (sweep_pr w Scenario.rules "" (Scenario.pr 1 []))
    = [Debug "fetching changed files for pr #1"; ListFiles 1;
       LogError (JS.Error_ "HttpError" "Not Found"); SetFailed "Not Found"].
Proof. repeat split; vm_compute; reflexivity. Qed.

(** C8, amended.  When the evaluation of a pull request raises an error
    (its changed files cannot be fetched, the decision throws, or the
    label-add call fails), [processPR] catches it: the error is logged as
    it is, after the debug lines of the pull request and without its
    number, the run is marked failed with the message of the error, and
    [processPR] returns false.  In the body of the loop over the pull
    requests the budget is therefore left as it was, and the loop goes on
    with the next pull request. *)
Theorem error_in_one_pr_does_not_stop_sweep
    (w : World) (labelGlobs : LabelGlobs) (notFoundLabel : string)
    (operationsPerRun operationsLeft : JS.number) (pr : PullRequest)
    (rest : list PullRequest) (e : JS.error)
    (Hbudget : JS.le operationsLeft (JS.Num 0) = false)
    (Herror : pulls_listFiles w (number pr) = inl e \/
              decision w labelGlobs notFoundLabel pr = inl e \/
              exists labels, decision w labelGlobs notFoundLabel pr = inr labels /\
                             labels <> [] /\
                             issues_addLabels w (number pr) labels = Some e) :
  outcome (sweep_pr w labelGlobs notFoundLabel pr) = inr false /\
  (exists t,
     trace (sweep_pr w labelGlobs notFoundLabel pr)
     = [fetching (number pr); ListFiles (number pr)] ++ t
       ++ [LogError e; SetFailed (JS.message e)] /\
     evaluated t = [] /\ fetched t = [] /\ warnings t = [] /\ reported t = []) /\
  reported (trace (sweep_pr w labelGlobs notFoundLabel pr))
  = [LogError e; SetFailed (JS.message e)] /\
  budget_after w labelGlobs notFoundLabel pr operationsLeft = operationsLeft /\
  run_prs w labelGlobs notFoundLabel operationsPerRun (pr :: rest) operationsLeft
  = (performing pr :: trace (sweep_pr w labelGlobs notFoundLabel pr)
       ++ trace (run_prs w labelGlobs notFoundLabel operationsPerRun rest operationsLeft),
     outcome (run_prs w labelGlobs notFoundLabel operationsPerRun rest operationsLeft)).
Proof.
  assert (Hd : decision w labelGlobs notFoundLabel pr = inl e \/
               exists labels, decision w labelGlobs notFoundLabel pr = inr labels /\
                              labels <> [] /\
                              issues_addLabels w (number pr) labels = Some e).
  { destruct Herror as [Hf | [Hd | Hadd]]; [left | by left | by right].
    unfold decision, decide. by rewrite Hf. }
  clear Herror.
  assert (Hs : exists t', settle w (number pr) (decision w labelGlobs notFoundLabel pr)
                 = (t' ++ [LogError e; SetFailed (JS.message e)], false) /\
               evaluated t' = [] /\ fetched t' = [] /\ warnings t' = [] /\
               reported t' = []).
  { destruct Hd as [-> | (labels & -> & Hne & Hadd)].
    - by exists [].
    - destruct labels as [| l ls]; [done |]. cbn. rewrite Hadd.
      by exists [AddLabels (number pr) (l :: ls)]. }
  destruct Hs as (t' & Hs & He' & Hf' & Hw' & Hl').
  assert (Hfalse : outcome (sweep_pr w labelGlobs notFoundLabel pr) = inr false).
  { by rewrite sweep_pr_returns, Hs. }
  assert (Hb : budget_after w labelGlobs notFoundLabel pr operationsLeft = operationsLeft).
  { unfold budget_after. by rewrite Hfalse. }
  assert (Ht : exists t,
     trace (sweep_pr w labelGlobs notFoundLabel pr)
     = [fetching (number pr); ListFiles (number pr)] ++ t
       ++ [LogError e; SetFailed (JS.message e)] /\
     evaluated t = [] /\ fetched t = [] /\ warnings t = [] /\ reported t = []).
  { unfold sweep_pr, decision in *.
    destruct (processPR_cases w (number pr) (JS.new_Set (name <$> labels pr))
                labelGlobs notFoundLabel) as (t & Hq & ->).
    cbn zeta in *. rewrite Hs. cbn [trace fst].
    destruct (quiet_observed t Hq) as (He & _ & Hf & Hw).
    exists (t ++ t'). split; [by rewrite <- !app_assoc |].
    rewrite evaluated_app, fetched_app, warnings_app, reported_app.
    by rewrite He, Hf, Hw, He', Hf', Hw', Hl', (quiet_reported t Hq). }
  split; [done |]. split; [done |]. split; [| split; [done |]].
  - destruct Ht as (t & -> & _ & _ & _ & Hl).
    by rewrite !reported_app, Hl.
  - by rewrite run_prs_cons, Hbudget, Hb.
Qed.

Lemma error_in_one_pr_does_not_stop_sweep_witness :
  let w := Scenario.world_failing "5" 1 [[Scenario.pr 1 []; Scenario.pr 2 []]]
             ["docs/readme.md"] in
  outcome (sweep_pr w Scenario.rules "" (Scenario.pr 1 [])) = inr false /\
  reported (trace (sweep_pr w Scenario.rules "" (Scenario.pr 1 [])))
  = [LogError (JS.Error_ "HttpError" "Not Found"); SetFailed "Not Found"] /\
  budget_after w Scenario.rules "" (Scenario.pr 1 []) (JS.Num 5) = JS.Num 5.
Proof.
  intros w.
  destruct (error_in_one_pr_does_not_stop_sweep w Scenario.rules "" (JS.Num 5) (JS.Num 5)
              (Scenario.pr 1 []) [Scenario.pr 2 []] (JS.Error_ "HttpError" "Not Found"))
    as (Hfalse & _ & Hlines & Hb & _).
  - reflexivity.
  - left. reflexivity.
  - split; [exact Hfalse | split; [exact Hlines | exact Hb]].
Defined.

Example loop_after_an_error :
  let w := Scenario.world_failing "5" 1 [] ["docs/readme.md"] in
  let r := run_prs w Scenario.rules "" (JS.Num 5) [Scenario.pr 1 []; Scenario.pr 2 []]
             (JS.Num 5) in
  evaluated (trace r) = [1; 2] /\ labeled (trace r) = [2] /\
  reported (trace r)
  = [LogError (JS.Error_ "HttpError" "Not Found"); SetFailed "Not Found"] /\
  outcome r = inr (Next (JS.Num 4)).
Proof. repeat split; vm_compute; reflexivity. Qed.

(** ** The budget that is not a number *)

Lemma parseInt_non_numeric s : non_numeric s = true -> JS.parseInt s = JS.NaN.
Proof.
  unfold non_numeric, JS.parseInt.
  destruct (JS.trimStart s) as [| c rest]; [done |].
  destruct c as [[] [] [] [] [] [] [] []]; try (intros H; done).
  all: destruct rest as [| c rest]; [done |].
  all: destruct c as [[] [] [] [] [] [] [] []]; intros H; done.
Qed.

(** The comparison of the startup check and of the sweep holds for the
    integers at or below zero only. *)
Lemma le_zero_iff ops : JS.le ops (JS.Num 0) = true <-> exists n, ops = JS.Num n /\ n <= 0.
Proof.
  destruct ops as [| n]; cbn.
  - split; [done | by intros (? & ? & _)].
  - rewrite Z.leb_le. split; [by exists n | by intros (? & [= <-] & ?)].
Qed.

(** A run whose budget is rejected logs the error of the check and nothing
    else; a run whose budget passes the check goes on to request the
    configuration. *)
Lemma run_startup w :
  input w "repo-token" <> "" -> input w "configuration-path" <> "" ->
  input w "operations-per-run" <> "" ->
  let operationsPerRun := JS.parseInt (JS.trim (input w "operations-per-run")) in
  if JS.le operationsPerRun (JS.Num 0)
  then run w = ([LogError (startup_error operationsPerRun);
                 SetFailed (JS.message (startup_error operationsPerRun))], inr tt)
  else exists t o, run w = (GetContents (JS.trim (input w "configuration-path")) :: t, o).
Proof.
  intros Htoken Hpath Hbudget. cbn zeta. unfold run.
  rewrite (getInput_given w "repo-token") by done.
  rewrite (getInput_given w "configuration-path") by done.
  rewrite (getInput_given w "operations-per-run") by done.
  rewrite getInput_optional.
  cbn [mbind action_bind mret action_ret]. cbv beta.
  destruct (JS.le _ (JS.Num 0)); [done |].
  unfold getLabelGlobs, fetchContent, await.
  cbn [mbind action_bind mret action_ret]. cbv beta.
  destruct (repos_getContents w _) as [e | content]; [by eexists _, _ |].
  cbn [mbind action_bind mret action_ret]. cbv beta.
  destruct (yaml_safeLoad w content) as [e | configObject]; [by eexists _, _ |].
  cbn [mbind action_bind mret action_ret]. cbv beta.
  destruct (getLabelGlobMapFromObject configObject) as [e | labelGlobs]; [by eexists _, _ |].
  cbn [mbind action_bind mret action_ret]. cbv beta.
  destruct (getThisPr w) as [e | [thisPr |]]; [by eexists _, _ | |].
  - cbn [mbind action_bind mret action_ret]. cbv beta.
    destruct (processPR _ _ _ _ _) as [t [e | b]]; by eexists _, _.
  - cbn [mbind action_bind mret action_ret]. cbv beta.
    destruct (run_pages _ _ _ _ _ _ _) as [t [e | []]]; by eexists _, _.
Qed.

(** C10. The startup check rejects the budget input exactly when
    [parseInt] of it is a number at or below zero: the run then ends with
    the error of the check before anything is requested.  For an input
    that does not start with a number [parseInt] is NaN; the check lets NaN
    pass and the run goes on to request the configuration; the budget stays
    NaN turn after turn and the test of the sweep never holds, so that the
    loop over the pull requests never returns for the budget, whatever it
    is given, and no run with such an input logs the warning of the
    budget. *)
Theorem nan_budget_is_never_exhausted :
  (forall w,
      input w "repo-token" <> "" -> input w "configuration-path" <> "" ->
      input w "operations-per-run" <> "" ->
      let operationsPerRun := JS.parseInt (JS.trim (input w "operations-per-run")) in
      ((exists e, run w = ([LogError e; SetFailed (JS.message e)], inr tt))
       <-> exists n, operationsPerRun = JS.Num n /\ n <= 0) /\
      (forall n, operationsPerRun = JS.Num n -> n <= 0 -> - 2 ^ 53 < n ->
         run w = ([LogError (startup_error (JS.Num n));
                   SetFailed (JS.message (startup_error (JS.Num n)))], inr tt)) /\
      (operationsPerRun = JS.NaN ->
         (exists t o,
            run w = (GetContents (JS.trim (input w "configuration-path")) :: t, o)) /\
         warnings (trace (run w)) = [])) /\
  (forall s, non_numeric s = true -> JS.parseInt s = JS.NaN) /\
  JS.le JS.NaN (JS.Num 0) = false /\
  (forall w labelGlobs notFoundLabel pr,
      budget_after w labelGlobs notFoundLabel pr JS.NaN = JS.NaN) /\
  (forall w labelGlobs notFoundLabel operationsPerRun pulls,
      let r := run_prs w labelGlobs notFoundLabel operationsPerRun pulls JS.NaN in
      outcome r = inr (Next JS.NaN) /\
      evaluated (trace r) = number <$> pulls /\
      warnings (trace r) = []).
Proof.
  split; [| split; [exact parseInt_non_numeric | split; [done | split]]].
  - intros w Htoken Hpath Hbudget ops.
    pose proof (run_startup w Htoken Hpath Hbudget) as H. cbn zeta in H. fold ops in H.
    split; [| split].
    + rewrite <- le_zero_iff. destruct (JS.le ops (JS.Num 0)).
      * split; [done | intros _; by eexists].
      * destruct H as (t & o & ->). split; [by intros (e & ?) | done].
    + intros n Hn Hle _. rewrite Hn in H. cbn [JS.le] in H.
      apply Z.leb_le in Hle. by rewrite Hle in H.
    + intros Hnan. rewrite Hnan in H. cbn [JS.le] in H.
      split; [exact H | apply run_observed].
  - intros w labelGlobs notFoundLabel pr. unfold budget_after.
    destruct (outcome _) as [e | [|]]; reflexivity.
  - intros w labelGlobs notFoundLabel operationsPerRun pulls.
    destruct (run_prs_NaN w labelGlobs notFoundLabel operationsPerRun pulls)
      as (Ho & He & _ & Hw).
    done.
Qed.

Lemma nan_budget_is_never_exhausted_witness :
  let pages := [[Scenario.pr 1 []]; [Scenario.pr 2 []; Scenario.pr 3 []]] in
  let w := Scenario.world "many" None pages ["docs/readme.md"] in
  JS.parseInt "many" = JS.NaN /\
  (exists t o, run w = (GetContents ".github/labeler.yml" :: t, o)) /\
  warnings (trace (run w)) = [].
Proof.
  intros pages w.
  destruct nan_budget_is_never_exhausted as (Hrun & Hnan & _ & _ & _).
  split; [apply Hnan; reflexivity |].
  destruct (Hrun w) as (_ & _ & H); try discriminate.
  apply H. apply Hnan. reflexivity.
Defined.

(** ** The run triggered by a pull request *)

Lemma getInput_result w name required : exists o, getInput w name required = ([], o).
Proof.
  unfold getInput. destruct (required && bool_decide (input w name = "")); by eexists.
Qed.

(** A run that ended in the outer [catch]: nothing was evaluated, nothing
    was labelled, the error is in the log and the run is marked failed. *)
Ltac failed_run :=
  cbn; (split; [done |]); (split; [done |]); (split; [done |]);
  eexists; split; repeat first [left | right].

(** C3, on the code: when the payload of the run holds a pull request,
    [getThisPr] calls its array of labels as a function and throws; the
    run logs the error and is marked failed, the changed files of the pull
    request are never fetched and no label-add call is issued. *)
Theorem triggering_pr_is_never_processed (w : World) (payload : PullRequestPayload)
    (Hpr : pull_request w = Some payload) :
  getThisPr w = inl (JS.TypeError "pullRequest.labels is not a function") /\
  evaluated (trace (run w)) = [] /\
  labeled (trace (run w)) = [] /\
  outcome (run w) = inr tt /\
  exists e, LogError e ∈ trace (run w) /\ SetFailed (JS.message e) ∈ trace (run w).
Proof.
  assert (Hthis : getThisPr w = inl (JS.TypeError "pullRequest.labels is not a function")).
  { unfold getThisPr. by rewrite Hpr. }
  split; [done |].
  unfold run.
  destruct (getInput_result w "repo-token" true) as [[e | token] ->];
    cbn [mbind action_bind mret action_ret]; cbv beta; [failed_run |].
  destruct (getInput_result w "configuration-path" true) as [[e | path] ->];
    cbn [mbind action_bind mret action_ret]; cbv beta; [failed_run |].
  rewrite getInput_optional. cbn [mbind action_bind mret action_ret]. cbv beta.
  destruct (getInput_result w "operations-per-run" true) as [[e | ops] ->];
    cbn [mbind action_bind mret action_ret]; cbv beta; [failed_run |].
  destruct (JS.le (JS.parseInt ops) (JS.Num 0)); [failed_run |].
  unfold getLabelGlobs, fetchContent, await. rewrite Hthis.
  cbn [mbind action_bind mret action_ret]. cbv beta.
  destruct (repos_getContents w path) as [e | content]; [failed_run |].
  cbn [mbind action_bind mret action_ret]. cbv beta.
  destruct (yaml_safeLoad w content) as [e | configObject]; [failed_run |].
  cbn [mbind action_bind mret action_ret]. cbv beta.
  destruct (getLabelGlobMapFromObject configObject) as [e | labelGlobs]; failed_run.
Qed.

Lemma triggering_pr_is_never_processed_witness :
  let payload := {| payload_number := 7; payload_labels := JS.Array [] |} in
  let w := Scenario.world "5" (Some payload) [] ["docs/readme.md"] in
  evaluated (trace (run w)) = [] /\ labeled (trace (run w)) = [].
Proof.
  intros payload w.
  destruct (triggering_pr_is_never_processed w payload) as (_ & He & Hl & _).
  - reflexivity.
  - split; [exact He | exact Hl].
Defined.

Example triggered_run :
  let payload := {| payload_number := 7;
                    payload_labels := JS.Array [JS.Object [("name", JS.Str "docs")]] |} in
  run (Scenario.world "5" (Some payload) [] ["docs/readme.md"])
  = ([GetContents ".github/labeler.yml";
      LogError (JS.TypeError "pullRequest.labels is not a function");
      SetFailed "pullRequest.labels is not a function"], inr tt).
Proof. vm_compute. reflexivity. Qed.

(** ** Labels that are already attached *)

(** C1, on the code: for a pull request labelled [docs] the expression of
    line 55 gives the set of the characters of that name, not the set of
    its label names; given that set, [processPR] does not skip the rule
    for [docs], its decision holds [docs], and it issues the label-add call
    for [docs] although the label is attached.  The fallback label is
    pushed without a look at the set: given the set that holds
    [needs-triage] and changed files that no rule matches, [processPR]
    decides [needs-triage] and issues the label-add call for it. *)
Theorem attached_label_is_added_again :
  let pr := Scenario.pr 1 ["docs"] in
  let w := Scenario.world "5" None [] ["docs/readme.md"] in
  let w' := Scenario.world "5" None [] ["README.md"] in
  let existing : gset string := {["needs-triage"]} in
  JS.new_Set (name <$> labels pr) = list_to_set ["d"; "o"; "c"; "s"] /\
  ("docs" ∉ JS.new_Set (name <$> labels pr)) /\
  decision w Scenario.rules "" pr = inr ["docs"] /\
  AddLabels 1 ["docs"]
    ∈ trace (processPR w 1 (JS.new_Set (name <$> labels pr)) Scenario.rules "") /\
  "needs-triage" ∈ existing /\
  outcome (labelsToAdd existing ["README.md"] Scenario.rules "needs-triage")
    = inr ["needs-triage"] /\
  AddLabels 1 ["needs-triage"]
    ∈ trace (processPR w' 1 existing Scenario.rules "needs-triage").
Proof.
  cbn zeta.
  split; [reflexivity |].
  split; [apply (bool_decide_unpack _); vm_compute; exact I |].
  split; [vm_compute; reflexivity |].
  split; [vm_compute; repeat first [left | right] |].
  split; [apply (bool_decide_unpack _); vm_compute; exact I |].
  split; [vm_compute; reflexivity |].
  vm_compute; repeat first [left | right].
Qed.

(** * Further properties of the program *)

(** ** The rule set of a well-formed configuration *)

Lemma Map_set_fresh {V} (key : string) (v : V) (m : list (string * V)) :
  key ∉ m.*1 -> Map_set key v m = m ++ [(key, v)].
Proof.
  induction m as [| [k v'] m IH]; intros Hfresh; [done |].
  cbn in Hfresh |- *. apply not_elem_of_cons in Hfresh as [Hne Hfresh].
  rewrite bool_decide_eq_false_2 by congruence. by rewrite IH.
Qed.

Lemma getLabelGlobMap_loop_accepts entries labelGlobs :
  NoDup (labelGlobs.*1 ++ entries.*1) ->
  Forall (fun entry => glob_shape entry.2 = true) entries ->
  getLabelGlobMap_loop entries labelGlobs
  = inr (labelGlobs ++ ((fun entry : string * JS.value => (entry.1, globs_of entry.2)) <$> entries)).
Proof.
  revert labelGlobs. induction entries as [| [label v] entries IH]; intros acc Hnd Hall.
  { cbn. by rewrite app_nil_r. }
  apply Forall_cons in Hall as [Hv Hall]. cbn in Hv.
  assert (Hfresh : label ∉ acc.*1).
  { cbn in Hnd. apply NoDup_app in Hnd as (_ & Hdisj & _).
    intros Hin. apply (Hdisj _ Hin). left. }
  assert (Hnd' : forall x, NoDup ((acc ++ [(label, x)]).*1 ++ entries.*1)).
  { intros x. rewrite fmap_app, <- app_assoc. exact Hnd. }
  destruct v; try discriminate Hv; cbn [getLabelGlobMap_loop];
    rewrite Map_set_fresh by done; rewrite IH by done;
    cbn; by rewrite <- app_assoc.
Qed.

(** X1. A configuration mapping whose keys are distinct and whose values
    are all strings or arrays is accepted: the rule set has one rule per
    entry, in the order of the entries, a string giving the rule of that one
    pattern and an array the rule of its items. *)
Theorem well_formed_config_gives_its_rules (props : list (string * JS.value))
    (Hkeys : NoDup props.*1)
    (Hshape : Forall (fun entry => glob_shape entry.2 = true) props) :
  getLabelGlobMapFromObject (JS.Object props)
  = inr ((fun entry : string * JS.value => (entry.1, globs_of entry.2)) <$> props).
Proof.
  unfold getLabelGlobMapFromObject. cbn [JS.for_in].
  by rewrite getLabelGlobMap_loop_accepts.
Qed.

Lemma well_formed_config_gives_its_rules_witness :
  getLabelGlobMapFromObject
    (JS.Object [("bug", JS.Str "**/*.patch");
                ("feature", JS.Array [JS.Str "src/**/*.ts"; JS.Str "docs/**"])])
  = inr [("bug", [JS.Str "**/*.patch"]);
         ("feature", [JS.Str "src/**/*.ts"; JS.Str "docs/**"])].
Proof.
  apply (well_formed_config_gives_its_rules
           [("bug", JS.Str "**/*.patch");
            ("feature", JS.Array [JS.Str "src/**/*.ts"; JS.Str "docs/**"])]).
  - apply (bool_decide_unpack _). vm_compute. exact I.
  - repeat constructor.
Defined.

(** ** The decision, in full *)

Lemma processPR_rules_strings existing changedFiles rules acc :
  outcome (processPR_rules existing changedFiles (string_rules rules) acc)
  = inr (acc ++ (filter (fun rule => selects existing changedFiles rule = true) rules).*1).
Proof.
  revert acc. induction rules as [| [label globs] rules IH]; intros acc.
  { cbn. by rewrite app_nil_r. }
  cbn [string_rules fmap list_fmap processPR_rules fst snd].
  fold (string_rules rules).
  rewrite outcome_bind. cbn [outcome core.debug emit snd].
  destruct (bool_decide (label ∈ existing)) eqn:Hin.
  - rewrite outcome_bind. cbn [outcome core.debug emit snd].
    rewrite filter_cons_False; [apply IH |].
    unfold selects. cbn [fst snd]. by rewrite Hin.
  - rewrite outcome_bind, checkGlobs_outcome.
    destruct (existsb _ globs) eqn:Hhit.
    + rewrite filter_cons_True.
      * rewrite IH. cbn. by rewrite <- app_assoc.
      * unfold selects. cbn [fst snd]. by rewrite Hin, Hhit.
    + rewrite filter_cons_False; [apply IH |].
      unfold selects. cbn [fst snd]. by rewrite Hin, Hhit.
Qed.

(** X2. For a rule set of string patterns the decision never throws, and
    it is exactly this: the labels of the rules, in rule order, that are not
    in the set of existing labels and have a pattern matching a changed
    file; when there is none, the fallback label alone if one is
    configured, and nothing otherwise. *)
Theorem decision_of_string_rules
    (existing : gset string) (changedFiles : list string)
    (rules : list (string * list string)) (notFoundLabel : string) :
  outcome (labelsToAdd existing changedFiles (string_rules rules) notFoundLabel)
  = inr (match (filter (fun rule => selects existing changedFiles rule = true) rules).*1 with
         | [] => if bool_decide (notFoundLabel = "") then [] else [notFoundLabel]
         | found => found
         end).
Proof.
  rewrite outcome_labelsToAdd, processPR_rules_strings. cbn [app].
  by destruct (_.*1).
Qed.

(** X3. Whatever the patterns are, a decision that is returned is either
    the fallback label alone, or labels of rules only: in the order of the
    rules, none of them in the set of existing labels the decision was
    given; and when the labels of the rules are distinct, no label comes
    twice in the decision. *)
Theorem decision_is_sound
    (existing : gset string) (changedFiles : list string) (labelGlobs : LabelGlobs)
    (notFoundLabel : string) (found : list string)
    (Hfound : outcome (labelsToAdd existing changedFiles labelGlobs notFoundLabel)
              = inr found) :
  (found = [notFoundLabel] /\ notFoundLabel <> "" \/
   sublist found labelGlobs.*1 /\ Forall (fun label => label ∉ existing) found) /\
  (NoDup labelGlobs.*1 -> NoDup found).
Proof.
  rewrite outcome_labelsToAdd in Hfound.
  destruct (outcome (processPR_rules existing changedFiles labelGlobs []))
    as [e | rule_labels] eqn:Hrules; [done |].
  destruct (processPR_rules_sound _ _ _ _ _ Hrules) as (new & -> & Hsub & Hnot).
  cbn [app] in Hfound.
  assert (Hcases : found = [notFoundLabel] /\ notFoundLabel <> "" \/ found = new).
  { destruct new as [| l ls]; [| right; congruence].
    destruct (bool_decide (notFoundLabel = "")) eqn:Hnf.
    - right. congruence.
    - left. split; [congruence |]. by apply bool_decide_eq_false in Hnf. }
  destruct Hcases as [[-> Hne] | ->].
  - split; [by left |]. intros _. apply NoDup_singleton.
  - split; [by right |]. intros Hnd. by eapply sublist_NoDup.
Qed.

Lemma decision_is_sound_witness :
  let existing : gset string := list_to_set ["ts"] in
  let labelGlobs := [("docs", [JS.Str "docs/**"]); ("ts", [JS.Str "*.ts"])] in
  NoDup ["docs"].
Proof.
  intros existing labelGlobs.
  destruct (decision_is_sound existing ["docs/readme.md"; "app.ts"] labelGlobs "" ["docs"])
    as [_ Hnd]; [vm_compute; reflexivity |].
  apply Hnd. apply (bool_decide_unpack _). vm_compute. exact I.
Defined.

(** X4. With a fallback label configured the decision is never empty:
    every pull request whose changed files could be fetched and whose
    decision was returned gets a label-add call, so in the sweep it uses
    budget when the call succeeds. *)
Theorem fallback_makes_every_decision_a_change
    (w : World) (prNumber : Z) (existing : gset string) (labelGlobs : LabelGlobs)
    (notFoundLabel : string) (changedFiles found : list string)
    (Hfallback : notFoundLabel <> "")
    (Hfiles : pulls_listFiles w prNumber = inr changedFiles)
    (Hfound : outcome (labelsToAdd existing changedFiles labelGlobs notFoundLabel)
              = inr found) :
  found <> [] /\
  labeled (trace (processPR w prNumber existing labelGlobs notFoundLabel)) = [prNumber] /\
  (issues_addLabels w prNumber found = None ->
   outcome (processPR w prNumber existing labelGlobs notFoundLabel) = inr true).
Proof.
  assert (Hne : found <> []).
  { rewrite outcome_labelsToAdd in Hfound.
    destruct (outcome (processPR_rules _ _ _ _)) as [e | [| l ls]]; [done | |].
    - rewrite bool_decide_eq_false_2 in Hfound by done. by injection Hfound as <-.
    - by injection Hfound as <-. }
  split; [done |].
  destruct (processPR_cases w prNumber existing labelGlobs notFoundLabel) as (t & Hq & ->).
  destruct (quiet_observed t Hq) as (_ & Hl & _ & _).
  cbn zeta. unfold decide. rewrite Hfiles, Hfound.
  destruct found as [| l ls]; [done |]. cbn [settle].
  destruct (issues_addLabels w prNumber (l :: ls));
    cbn [trace outcome fst snd]; rewrite !labeled_app, Hl; by split.
Qed.

Lemma fallback_makes_every_decision_a_change_witness :
  let w := Scenario.world "5" None [] ["README.md"] in
  labeled (trace (processPR w 1 ∅ Scenario.rules "needs-triage")) = [1].
Proof.
  intros w.
  destruct (fallback_makes_every_decision_a_change w 1 ∅ Scenario.rules "needs-triage"
              ["README.md"] ["needs-triage"]) as (_ & H & _).
  - discriminate.
  - reflexivity.
  - vm_compute. reflexivity.
  - exact H.
Defined.

(** ** Patterns that are not strings *)

Lemma checkGlobs_strings_then globs rest changedFiles :
  outcome (checkGlobs changedFiles ((JS.Str <$> globs) ++ rest))
  = if existsb (fun glob =>
         existsb (Minimatch.match_ (Minimatch.make glob)) changedFiles) globs
    then inr true
    else outcome (checkGlobs changedFiles rest).
Proof.
  unfold checkGlobs. induction globs as [| g gs IH]; [done |].
  cbn [checkGlobs_with fmap list_fmap existsb app].
  rewrite outcome_bind. cbn [outcome core.debug emit snd].
  rewrite outcome_bind. cbn [outcome Minimatch.construct snd].
  rewrite outcome_bind, checkGlobs_files_outcome.
  destruct (existsb _ changedFiles); [done |]. exact IH.
Qed.

(** X5. The items of a configuration array are not checked when the rule
    set is built, and [checkGlobs] compiles the patterns one by one as it
    goes: a pattern that is not a string makes it throw the type error of
    the matcher when no pattern before it matched a file, and is never
    looked at when one did. *)
Theorem non_string_pattern_throws_unless_matched_before
    (changedFiles globs : list string) (bad : JS.value) (rest : list JS.value)
    (Hbad : forall s, bad <> JS.Str s) :
  let before := existsb (fun glob =>
      existsb (Minimatch.match_ (Minimatch.make glob)) changedFiles) globs in
  (before = false ->
   outcome (checkGlobs changedFiles ((JS.Str <$> globs) ++ bad :: rest))
   = inl (JS.TypeError "glob pattern string required")) /\
  (before = true ->
   outcome (checkGlobs changedFiles ((JS.Str <$> globs) ++ bad :: rest)) = inr true).
Proof.
  cbn zeta. rewrite checkGlobs_strings_then.
  split; intros ->; [| done].
  unfold checkGlobs. cbn [checkGlobs_with].
  rewrite outcome_bind. cbn [outcome core.debug emit snd].
  rewrite outcome_bind. destruct bad; try done. by destruct (Hbad s).
Qed.

Lemma non_string_pattern_throws_unless_matched_before_witness :
  outcome (checkGlobs ["src/app.ts"] [JS.Str "docs/**"; JS.Number "3"; JS.Str "src/**"])
  = inl (JS.TypeError "glob pattern string required") /\
  outcome (checkGlobs ["docs/a.md"] [JS.Str "docs/**"; JS.Number "3"; JS.Str "src/**"])
  = inr true.
Proof.
  split.
  - destruct (non_string_pattern_throws_unless_matched_before
                ["src/app.ts"] ["docs/**"] (JS.Number "3") [JS.Str "src/**"])
      as [H _]; [discriminate |]. apply H. vm_compute. reflexivity.
  - destruct (non_string_pattern_throws_unless_matched_before
                ["docs/a.md"] ["docs/**"] (JS.Number "3") [JS.Str "src/**"])
      as [_ H]; [discriminate |]. apply H. vm_compute. reflexivity.
Defined.

(** ** The matcher and the order of its arguments *)

Lemma existsb_subseteq {A} (f : A -> bool) (l l' : list A) :
  l ⊆ l' -> existsb f l = true -> existsb f l' = true.
Proof.
  intros Hsub. rewrite !existsb_exists. intros (x & Hin & Hf).
  exists x. split; [| done]. apply list_elem_of_In, Hsub, list_elem_of_In, Hin.
Qed.

(** X6. On string patterns the answer of [checkGlobs] depends on which
    files and which patterns it is given, not on their order or number:
    more files or more patterns never turn true into false, and two calls
    on the same files and the same patterns, listed in any order, agree. *)
Theorem checkGlobs_ignores_order (changedFiles changedFiles' globs globs' : list string)
    (Hfiles : changedFiles ⊆ changedFiles') (Hglobs : globs ⊆ globs') :
  (outcome (checkGlobs changedFiles (JS.Str <$> globs)) = inr true ->
   outcome (checkGlobs changedFiles' (JS.Str <$> globs')) = inr true) /\
  (changedFiles' ⊆ changedFiles -> globs' ⊆ globs ->
   outcome (checkGlobs changedFiles (JS.Str <$> globs))
   = outcome (checkGlobs changedFiles' (JS.Str <$> globs'))).
Proof.
  rewrite !checkGlobs_outcome.
  assert (Hmono : forall fs fs' gs gs' : list string, fs ⊆ fs' -> gs ⊆ gs' ->
    existsb (fun glob => existsb (Minimatch.match_ (Minimatch.make glob)) fs) gs = true ->
    existsb (fun glob => existsb (Minimatch.match_ (Minimatch.make glob)) fs') gs' = true).
  { intros fs fs' gs gs' Hf Hg H. apply (existsb_subseteq _ gs gs' Hg).
    apply existsb_exists in H as (g & Hin & H). apply existsb_exists.
    exists g. split; [done |]. by apply (existsb_subseteq _ fs fs'). }
  split.
  - intros [= H]. f_equal. by apply (Hmono changedFiles changedFiles' globs globs').
  - intros Hfiles' Hglobs'. f_equal.
    destruct (existsb _ globs) eqn:E1, (existsb _ globs') eqn:E2; try done.
    + rewrite (Hmono changedFiles changedFiles' globs globs') in E2; done.
    + rewrite (Hmono changedFiles' changedFiles globs' globs) in E1; done.
Qed.

Lemma checkGlobs_ignores_order_witness :
  outcome (checkGlobs ["a.md"; "src/b.ts"] [JS.Str "docs/**"; JS.Str "src/**"])
  = outcome (checkGlobs ["src/b.ts"; "a.md"] [JS.Str "src/**"; JS.Str "docs/**"]).
Proof.
  destruct (checkGlobs_ignores_order ["a.md"; "src/b.ts"] ["src/b.ts"; "a.md"]
              ["docs/**"; "src/**"] ["src/**"; "docs/**"]) as [_ H].
  - intros x Hx. apply (bool_decide_unpack _).
    revert x Hx. apply Forall_forall. repeat constructor.
  - intros x Hx. apply (bool_decide_unpack _).
    revert x Hx. apply Forall_forall. repeat constructor.
  - apply H.
    + intros x Hx. apply (bool_decide_unpack _).
      revert x Hx. apply Forall_forall. repeat constructor.
    + intros x Hx. apply (bool_decide_unpack _).
      revert x Hx. apply Forall_forall. repeat constructor.
Defined.

(** ** The calls of [processPR] *)

Lemma adds_app t1 t2 : adds (t1 ++ t2) = adds t1 ++ adds t2.
Proof. apply omap_app. Qed.

Lemma quiet_no_adds w t : quiet t -> adds t = [] /\ succeeded w t = [].
Proof. induction 1 as [| ev t [msg ->] _ IH]; [done |]. exact IH. Qed.

Lemma settle_adds w prNumber d :
  adds (settle w prNumber d).1 =
    match d with
    | inr (l :: ls) => [(prNumber, l :: ls)]
    | _ => []
    end /\
  succeeded w (settle w prNumber d).1 = if (settle w prNumber d).2 then [prNumber] else [].
Proof.
  destruct d as [e | [| l ls]]; cbn [settle]; [done | done |].
  destruct (issues_addLabels w prNumber (l :: ls)) eqn:Hadd; cbn; by rewrite Hadd.
Qed.

(** X7. [processPR] never throws.  It asks for the changed files of its
    pull request once and lists no page; it issues no label-add call when
    the decision is empty or could not be reached, and otherwise one call
    that carries the whole decision; and it returns true exactly when that
    call was issued and succeeded. *)
Theorem processPR_calls
    (w : World) (prNumber : Z) (existing : gset string) (labelGlobs : LabelGlobs)
    (notFoundLabel : string) :
  let d := decide w labelGlobs notFoundLabel prNumber existing in
  let p := processPR w prNumber existing labelGlobs notFoundLabel in
  (exists b : bool, outcome p = inr b) /\
  evaluated (trace p) = [prNumber] /\
  fetched (trace p) = [] /\
  adds (trace p) = match d with
                   | inr (l :: ls) => [(prNumber, l :: ls)]
                   | _ => []
                   end /\
  (outcome p = inr true <->
   exists labels, d = inr labels /\ labels <> [] /\
                  issues_addLabels w prNumber labels = None).
Proof.
  cbn zeta.
  destruct (processPR_cases w prNumber existing labelGlobs notFoundLabel) as (t & Hq & ->).
  cbn zeta. cbn [trace outcome fst snd].
  destruct (quiet_observed t Hq) as (He & _ & Hf & _).
  destruct (quiet_no_adds w t Hq) as (Ha & _).
  destruct (settle_observed w prNumber (decide w labelGlobs notFoundLabel prNumber existing))
    as (Se & Sf & _ & _).
  destruct (settle_adds w prNumber (decide w labelGlobs notFoundLabel prNumber existing))
    as (Sa & _).
  split; [by eexists |].
  rewrite !evaluated_app, !fetched_app, !adds_app, He, Hf, Ha, Se, Sf, Sa.
  split; [done |]. split; [done |]. split; [done |].
  rewrite <- settle_true. split; congruence.
Qed.

(** ** The budget, whatever fails *)



(** ** The order of the sweep *)



(** ** The ways a run ends *)

(** X12. Whatever the inputs, the payload and the answers of the platform,
    a run ends in one of four ways: with one logged error before anything
    is requested (a required input is missing or the budget is rejected);
    after the request for the configuration and nothing else (no page to
    list); with an error after the request for the configuration (the
    configuration cannot be loaded, or the payload holds a pull request);
    or with an error after the requests for the configuration and for the
    first page of the listing.  So a run makes at most these two requests:
    it never asks for the changed files of a pull request, never issues a
    label-add call and never logs the warning of the budget. *)
Theorem run_ends_in_one_of_four_ways (w : World) :
  let path := JS.trim (input w "configuration-path") in
  ((exists e, run w = ([LogError e; SetFailed (JS.message e)], inr tt)) \/
   run w = ([GetContents path], inr tt) \/
   (exists e, run w = ([GetContents path; LogError e; SetFailed (JS.message e)], inr tt)) \/
   (exists e, run w = ([GetContents path; ListPulls 0; LogError e;
                        SetFailed (JS.message e)], inr tt))) /\
  evaluated (trace (run w)) = [] /\
  adds (trace (run w)) = [] /\
  warnings (trace (run w)) = [].
Proof.
  cbn zeta.
  destruct (run_cases w) as [(e & H) | (_ & [H | [(e & H) | (e & H)]])].
  - split; [left; by exists e | by rewrite H].
  - split; [right; by left | by rewrite H].
  - split; [right; right; left; by exists e | by rewrite H].
  - split; [right; right; right; by exists e | by rewrite H].
Qed.

(** ** Errors and the failure of the run *)

Lemma marked_app t1 t2 : marked t1 -> marked t2 -> marked (t1 ++ t2).
Proof.
  intros H1 H2. induction H1 as [| e t _ IH | ev t Herr Hfail _ IH]; [done | |].
  - cbn. by constructor.
  - cbn. by apply marked_other.
Qed.

Lemma marked_quiet t : quiet t -> marked t.
Proof.
  induction 1 as [| ev t [msg ->] _ IH]; [constructor |].
  by apply marked_other.
Qed.

Lemma marked_call ev :
  (forall e, ev <> LogError e) -> (forall msg, ev <> SetFailed msg) -> marked [ev].
Proof. intros. apply marked_other; [done | done | constructor]. Qed.

Lemma marked_bind {A B} (m : action A) (f : A -> action B) :
  marked (trace m) -> (forall a, marked (trace (f a))) -> marked (trace (m ≫= f)).
Proof.
  intros Hm Hf. rewrite trace_bind. apply marked_app; [done |].
  destruct (outcome m); [constructor | apply Hf].
Qed.

(** The outer [catch], and the one of [processPR], keep a trace marked. *)
Lemma marked_try_catch {A} (body : action A) (k : JS.error -> action A) :
  marked (trace body) ->
  (forall e, trace (k e) = [LogError e; SetFailed (JS.message e)]) ->
  marked (trace (try_catch body k)).
Proof.
  intros Hb Hk. destruct body as [t [e | a]]; cbn in Hb |- *; [| done].
  specialize (Hk e). destruct (k e) as [t' r]. cbn in Hk |- *. subst t'.
  apply marked_app; [done |]. repeat constructor.
Qed.

Lemma marked_settle w prNumber d : marked (settle w prNumber d).1.
Proof.
  destruct d as [e | [| l ls]]; cbn [settle]; [repeat constructor | constructor |].
  destruct (issues_addLabels w prNumber (l :: ls)); cbn.
  - apply marked_other; [done | done |]. repeat constructor.
  - by apply marked_call.
Qed.

Lemma marked_processPR w prNumber existing labelGlobs notFoundLabel :
  marked (trace (processPR w prNumber existing labelGlobs notFoundLabel)).
Proof.
  destruct (processPR_cases w prNumber existing labelGlobs notFoundLabel) as (t & Hq & ->).
  cbn zeta. cbn [trace fst]. apply marked_app.
  - apply marked_other; [done | done |]. by apply marked_call.
  - apply marked_app; [by apply marked_quiet | apply marked_settle].
Qed.

Lemma marked_run_prs w labelGlobs notFoundLabel operationsPerRun prs operationsLeft :
  marked (trace (run_prs w labelGlobs notFoundLabel operationsPerRun prs operationsLeft)).
Proof.
  revert operationsLeft. induction prs as [| pr rest IH]; intros ops; [constructor |].
  rewrite run_prs_cons. destruct (JS.le ops (JS.Num 0)).
  - apply marked_other; [done | done |]. by apply marked_call.
  - cbn [trace fst]. apply marked_other; [done | done |].
    apply marked_app; [apply marked_processPR | apply IH].
Qed.

Lemma marked_run_pages w labelGlobs notFoundLabel operationsPerRun page pages operationsLeft :
  marked (trace (run_pages w labelGlobs notFoundLabel operationsPerRun page pages
                   operationsLeft)).
Proof.
  revert page operationsLeft.
  induction pages as [| response pages IH]; intros page ops; [constructor |].
  cbn [run_pages]. apply marked_bind; [by apply marked_call |].
  intros response_. apply marked_bind; [constructor |].
  intros pulls. apply marked_bind; [apply marked_run_prs |].
  intros [ops' |]; [apply IH | constructor].
Qed.

Lemma marked_getInput w name required : marked (trace (getInput w name required)).
Proof. destruct (getInput_result w name required) as [o ->]. constructor. Qed.

Lemma marked_getLabelGlobs w configurationPath :
  marked (trace (getLabelGlobs w configurationPath)).
Proof.
  unfold getLabelGlobs. apply marked_bind; [by apply marked_call |].
  intros content. apply marked_bind; [constructor |]. intros configObject. constructor.
Qed.

(** The failure mark of a marked trace stands for a logged error. *)
Lemma marked_failed t :
  marked t ->
  (forall msg, SetFailed msg ∈ t -> exists e, LogError e ∈ t /\ msg = JS.message e) /\
  (forall e, LogError e ∈ t -> SetFailed (JS.message e) ∈ t).
Proof.
  induction 1 as [| e t _ [IH1 IH2] | ev t Herr Hfail _ [IH1 IH2]].
  - split; intros ? Hin; by apply elem_of_nil in Hin.
  - split.
    + intros msg Hin. apply elem_of_cons in Hin as [Heq | Hin]; [done |].
      apply elem_of_cons in Hin as [[= ->] | Hin].
      * exists e. split; [left | done].
      * destruct (IH1 msg Hin) as (e' & Hin' & ->). exists e'.
        split; [by do 2 right | done].
    + intros e' Hin. apply elem_of_cons in Hin as [[= ->] | Hin]; [right; left |].
      apply elem_of_cons in Hin as [Heq | Hin]; [done |].
      do 2 right. by apply IH2.
  - split.
    + intros msg Hin. apply elem_of_cons in Hin as [Heq | Hin];
        [exfalso; by apply (Hfail msg) |].
      destruct (IH1 msg Hin) as (e' & Hin' & ->). exists e'. split; [by right | done].
    + intros e Hin. apply elem_of_cons in Hin as [Heq | Hin];
        [exfalso; by apply (Herr e) |].
      right. by apply IH2.
Qed.

(** X10. The run never throws: whatever happens, [run] returns.  And it is
    marked failed for the errors it logged and for nothing else: in its
    trace each logged error is followed at once by the failure mark with
    the message of that error, no failure mark comes without its error, so
    the run is marked failed exactly when an error was logged. *)
Theorem run_fails_exactly_on_logged_errors (w : World) :
  outcome (run w) = inr tt /\
  marked (trace (run w)) /\
  (forall msg, SetFailed msg ∈ trace (run w) ->
     exists e, LogError e ∈ trace (run w) /\ msg = JS.message e) /\
  (forall e, LogError e ∈ trace (run w) -> SetFailed (JS.message e) ∈ trace (run w)).
Proof.
  assert (Hmarked : marked (trace (run w))).
  { unfold run. apply marked_try_catch; [| done].
    apply marked_bind; [apply marked_getInput |]. intros token.
    apply marked_bind; [apply marked_getInput |]. intros configPath.
    apply marked_bind; [apply marked_getInput |]. intros notFoundLabel.
    apply marked_bind; [apply marked_getInput |]. intros operationsPerRun.
    cbn zeta. apply marked_bind.
    { destruct (JS.le _ _); constructor. }
    intros _. apply marked_bind; [apply marked_getLabelGlobs |]. intros labelGlobs.
    apply marked_bind; [constructor |]. intros [thisPr |].
    - apply marked_bind; [apply marked_processPR | constructor].
    - apply marked_run_pages. }
  split; [| split; [done | by apply marked_failed]].
  unfold run. set (body := _ ≫= _). by destruct body as [t [e | []]].
Qed.

(** ** Failures before the sweep *)

Lemma getLabelGlobs_run w configurationPath :
  getLabelGlobs w configurationPath =
  ([GetContents configurationPath],
   match repos_getContents w configurationPath with
   | inl e => inl e
   | inr content =>
       match yaml_safeLoad w content with
       | inl e => inl e
       | inr configObject => getLabelGlobMapFromObject configObject
       end
   end).
Proof.
  unfold getLabelGlobs, fetchContent, await.
  destruct (repos_getContents w configurationPath) as [e | content]; [done |].
  cbn [mbind action_bind]. cbv beta.
  destruct (yaml_safeLoad w content) as [e | configObject]; [done |].
  cbn [mbind action_bind]. cbv beta.
  by destruct (getLabelGlobMapFromObject configObject).
Qed.

(** X11. A configuration that cannot be turned into a rule set ends the
    run before any pull request is looked at: when the file cannot be
    fetched, the YAML loader throws, or a label has a value of an
    unexpected type, the run requests the configuration, logs that error,
    is marked failed with its message, and does nothing else: no page of
    the listing is requested. *)
Theorem config_failure_ends_the_run (w : World) (e : JS.error)
    (Htoken : input w "repo-token" <> "")
    (Hpath : input w "configuration-path" <> "")
    (Hbudget : input w "operations-per-run" <> "")
    (Hcheck : JS.le (JS.parseInt (JS.trim (input w "operations-per-run"))) (JS.Num 0)
              = false)
    (Hconfig : outcome (getLabelGlobs w (JS.trim (input w "configuration-path"))) = inl e) :
  run w = ([GetContents (JS.trim (input w "configuration-path"));
            LogError e; SetFailed (JS.message e)], inr tt).
Proof.
  unfold run.
  rewrite (getInput_given w "repo-token") by done.
  rewrite (getInput_given w "configuration-path") by done.
  rewrite (getInput_given w "operations-per-run") by done.
  rewrite getInput_optional.
  cbn [mbind action_bind mret action_ret]. cbv beta.
  rewrite Hcheck. rewrite getLabelGlobs_run in Hconfig |- *. cbn [outcome snd] in Hconfig.
  rewrite Hconfig. reflexivity.
Qed.

Lemma config_failure_ends_the_run_witness :
  run Scenario2.world_bad_config
  = ([GetContents ".github/labeler.yml";
      LogError (unexpected_type "size"); SetFailed (JS.message (unexpected_type "size"))],
     inr tt).
Proof.
  apply (config_failure_ends_the_run Scenario2.world_bad_config (unexpected_type "size"));
    try discriminate; reflexivity.
Defined.

(** X13. The inputs are read before anything is requested, the token
    first, then the path of the configuration, then the budget; the first
    required input that is missing ends the run with the error that names
    it, and nothing is requested from the platform. *)
Theorem missing_input_ends_the_run (w : World) (name : string)
    (Hmissing : input w name = "")
    (Hfirst : name = "repo-token" \/
              name = "configuration-path" /\ input w "repo-token" <> "" \/
              name = "operations-per-run" /\ input w "repo-token" <> "" /\
                input w "configuration-path" <> "") :
  let e := JS.Error ("Input required and not supplied: " +:+ name) in
  run w = ([LogError e; SetFailed (JS.message e)], inr tt).
Proof.
  cbn zeta. unfold run.
  destruct Hfirst as [-> | [[-> Htoken] | (-> & Htoken & Hpath)]].
  - rewrite (getInput_missing w "repo-token") by done. reflexivity.
  - rewrite (getInput_given w "repo-token") by done.
    rewrite (getInput_missing w "configuration-path") by done. reflexivity.
  - rewrite (getInput_given w "repo-token") by done.
    rewrite (getInput_given w "configuration-path") by done.
    rewrite getInput_optional.
    rewrite (getInput_missing w "operations-per-run") by done. reflexivity.
Qed.

Lemma missing_input_ends_the_run_witness :
  let w := Scenario.world "" None [[Scenario.pr 1 []]] ["docs/readme.md"] in
  run w = ([LogError (JS.Error "Input required and not supplied: operations-per-run");
            SetFailed "Input required and not supplied: operations-per-run"], inr tt).
Proof.
  intros w. apply (missing_input_ends_the_run w "operations-per-run").
  - reflexivity.
  - right. right. repeat split; discriminate.
Defined.

(** ** A configuration that is not a mapping *)

Lemma string_of_Z_inj z z' : JS.string_of_Z z = JS.string_of_Z z' -> z = z'.
Proof.
  unfold JS.string_of_Z. intros H.
  assert (Hnil : forall z, Z.to_int z <> Decimal.Pos Decimal.Nil /\
                           Z.to_int z <> Decimal.Neg Decimal.Nil).
  { intros [| p | p]; cbn; split; try discriminate;
      intros [= Hp]; by apply DecimalPos.Unsigned.to_uint_nonnil in Hp. }
  apply (f_equal NilZero.int_of_string) in H.
  rewrite !NilZero.isi in H by apply Hnil.
  injection H as H. apply (f_equal Z.of_int) in H. by rewrite !DecimalZ.of_to in H.
Qed.

Lemma index_keys_shape (key : nat -> string) (items : list JS.value) :
  Forall (fun v => glob_shape v = true) items ->
  Forall (fun entry : string * JS.value => glob_shape entry.2 = true)
    (imap (fun i x => (key i, x)) items).
Proof.
  intros H. revert key. induction H as [| v items Hv _ IH]; intros key; [constructor |].
  cbn. constructor; [done |]. apply (IH (key ∘ S)).
Qed.

(** X14. A configuration that is a list and not a mapping is not rejected:
    the loop over its keys runs over the indices, so a list of patterns
    (strings or arrays of strings) gives the rule set whose labels are the
    indices 0, 1, 2 and so on, each with the patterns at that index; and a
    configuration that is empty (null) gives the empty rule set. *)
Theorem list_configuration_is_accepted (items : list JS.value)
    (Hshape : Forall (fun v => glob_shape v = true) items) :
  getLabelGlobMapFromObject (JS.Array items)
  = inr (imap (fun i v => (JS.string_of_Z (Z.of_nat i), globs_of v)) items) /\
  getLabelGlobMapFromObject JS.Null = inr [].
Proof.
  split; [| done].
  unfold getLabelGlobMapFromObject. cbn [JS.for_in].
  rewrite getLabelGlobMap_loop_accepts.
  - cbn [app]. by rewrite fmap_imap.
  - cbn [fmap list_fmap app]. rewrite fmap_imap.
    pose proof (imap_seq items (fun n => JS.string_of_Z (Z.of_nat n)) 0) as Hseq.
    cbn beta in Hseq.
    rewrite (imap_ext _ (fun j _ => JS.string_of_Z (Z.of_nat (0 + j)))) by done.
    rewrite Hseq. apply NoDup_fmap_2_strong; [| apply NoDup_seq].
    intros i j _ _ H. apply string_of_Z_inj in H. lia.
  - by apply index_keys_shape.
Qed.

Lemma list_configuration_is_accepted_witness :
  getLabelGlobMapFromObject (JS.Array [JS.Str "docs/**"; JS.Array [JS.Str "*.ts"]])
  = inr [("0", [JS.Str "docs/**"]); ("1", [JS.Str "*.ts"])].
Proof.
  destruct (list_configuration_is_accepted [JS.Str "docs/**"; JS.Array [JS.Str "*.ts"]])
    as [H _]; [repeat constructor |].
  exact H.
Defined.

(** ** A run triggered by a pull request lists nothing *)

Lemma no_listing_bind {A B} (m : action A) (f : A -> action B) :
  fetched (trace m) = [] -> (forall a, fetched (trace (f a)) = []) ->
  fetched (trace (m ≫= f)) = [].
Proof.
  intros Hm Hf. rewrite trace_bind, fetched_app, Hm.
  destruct (outcome m); [done | apply Hf].
Qed.

Lemma no_listing_getInput w name required : fetched (trace (getInput w name required)) = [].
Proof. by destruct (getInput_result w name required) as [o ->]. Qed.

(** X16. A run that was triggered by a pull request never sweeps: whatever
    else happens in it, no page of the listing of open pull requests is
    requested. *)
Theorem triggered_run_lists_nothing (w : World) (payload : PullRequestPayload)
    (Hpr : pull_request w = Some payload) :
  fetched (trace (run w)) = [].
Proof.
  assert (Hbody : forall (body : action unit),
            fetched (trace body) = [] ->
            fetched (trace (try_catch body
                              (fun error => core.error error;;
                                            core.setFailed (JS.message error)))) = []).
  { intros [t [e | []]] H; unfold trace in *;
      cbn [fst try_catch mbind action_bind core.error core.setFailed emit app] in *;
      [| done].
    by rewrite fetched_app, H. }
  unfold run. apply Hbody.
  apply no_listing_bind; [apply no_listing_getInput |]. intros token.
  apply no_listing_bind; [apply no_listing_getInput |]. intros configPath.
  apply no_listing_bind; [apply no_listing_getInput |]. intros notFoundLabel.
  apply no_listing_bind; [apply no_listing_getInput |]. intros operationsPerRun.
  cbn zeta. apply no_listing_bind.
  { by destruct (JS.le _ _). }
  intros _. apply no_listing_bind; [by rewrite getLabelGlobs_run |]. intros labelGlobs.
  unfold getThisPr. rewrite Hpr. reflexivity.
Qed.

Lemma triggered_run_lists_nothing_witness :
  let payload := {| payload_number := 7; payload_labels := JS.Array [] |} in
  fetched (trace (run (Scenario.world "5" (Some payload) [[Scenario.pr 1 []]]
                         ["docs/readme.md"]))) = [].
Proof.
  intros payload.
  apply (triggered_run_lists_nothing _ payload). reflexivity.
Defined.
